(** * profanity_filter.cpp: a shallow embedding and its verified properties

    The four filters of [profanity_filter.cpp] ([SimpleReplacementFilter],
    [RegexFilter], [TrieFilter], [HybridFilter]) are embedded as Rocq
    functions over [list ascii] (a [std::string] is a sequence of 8-bit
    [char]s).  Indices of type [size_t] are modelled by [nat]: every index
    the program computes is bounded by the length of the string it indexes,
    which is below [std::string::npos], so no index ever wraps; the value
    [npos] itself is modelled by [None].

    Loops that the source writes as [while] without an evident bound take an
    iteration budget ("fuel") and report [OutOfFuel] when it is exhausted; a
    write [result[k] = c] with [k] beyond the size of [result] (undefined
    behaviour in C++) is reported as [OutOfRange]. *)

From Stdlib Require Import Ascii Lia.
From Stdlib Require String.
From stdpp Require Import base list gmap strings sorting.

Set Default Proof Using "Type".
#[local] Set Warnings "-register-all".

(* ================================================================== *)
(** * Strings and characters *)
(* ================================================================== *)

Abbreviation str := (list ascii).

(** String literals for examples. *)
Definition lit (s : string) : str := String.list_ascii_of_string s.

(** [::tolower] in the "C" locale: the 26 upper-case letters are shifted,
    every other byte is returned unchanged. *)
Definition tolower (c : ascii) : ascii :=
  let n := nat_of_ascii c in
  if (65 <=? n) && (n <=? 90) then ascii_of_nat (n + 32) else c.

(** [toLower]: [std::transform(lower.begin(), lower.end(), lower.begin(), ::tolower)]. *)
Definition toLower (s : str) : str := map tolower s.

(** [starts_with w s]: the characters of [w] are the first characters of [s]. *)
Fixpoint starts_with (w s : str) : bool :=
  match w, s with
  | [], _ => true
  | _ :: _, [] => false
  | a :: w', b :: s' => if decide (a = b) then starts_with w' s' else false
  end.

(** [find_in w rest at_]: the left-to-right search of [std::string::find],
    over the part [rest] of the string that begins at index [at_]. *)
Fixpoint find_in (w rest : str) (at_ : nat) : option nat :=
  if starts_with w rest then Some at_
  else match rest with
       | [] => None
       | _ :: rest' => find_in w rest' (S at_)
       end.

(** [find s w pos] is [s.find(w, pos)]: the lowest index [>= pos] at which
    [w] occurs in [s], [None] for [npos].  With [pos > s.size()] the result
    is [npos], also for the empty [w]. *)
Definition find (s w : str) (pos : nat) : option nat :=
  if decide (pos ≤ length s) then find_in w (drop pos s) pos else None.

(* ================================================================== *)
(** * Outcomes of the censoring loops *)
(* ================================================================== *)

Inductive outcome (A : Type) : Type :=
| Done (a : A)      (* the call returns [a] *)
| OutOfRange        (* [operator[]] beyond [size()] *)
| OutOfFuel.        (* the iteration budget is exhausted *)
Arguments Done {A} a.
Arguments OutOfRange {A}.
Arguments OutOfFuel {A}.

#[global] Instance outcome_ret : MRet outcome := @Done.
#[global] Instance outcome_bind : MBind outcome := λ A B k m,
  match m with
  | Done a => k a
  | OutOfRange => OutOfRange
  | OutOfFuel => OutOfFuel
  end.

(** [store k c s] is the assignment [s[k] = c]. *)
Definition store (k : nat) (c : ascii) (s : str) : outcome str :=
  if decide (k < length s) then Done (<[k := c]> s) else OutOfRange.

(** [fill c pos n result]:
    [for (size_t i = 0; i < n; ++i) result[pos + i] = c;] *)
Fixpoint fill (c : ascii) (pos n : nat) (result : str) : outcome str :=
  match n with
  | 0 => Done result
  | S n' => result' ← store pos c result; fill c (S pos) n' result'
  end.

(** [fill_guarded c pos n result]:
    [for (size_t i = 0; i < n && pos + i < result.length(); ++i) result[pos + i] = c;] *)
Fixpoint fill_guarded (c : ascii) (pos n : nat) (result : str) : str :=
  match n with
  | 0 => result
  | S n' =>
      if decide (pos < length result)
      then fill_guarded c (S pos) n' (<[pos := c]> result)
      else result
  end.

(** [in_span k (pos, len)]: index [k] lies in the span of [len] characters
    that begins at [pos]; [covered spans k]: it lies in one of the spans. *)
Definition in_span (k : nat) (sp : nat * nat) : Prop := sp.1 ≤ k < sp.1 + sp.2.
Definition covered (spans : list (nat * nat)) (k : nat) : Prop :=
  ∃ sp, sp ∈ spans ∧ in_span k sp.

(** [returns_length n o]: the call did not write out of range, and if it
    returned, it returned a string of length [n]. *)
Definition returns_length (n : nat) (o : outcome str) : Prop :=
  match o with
  | Done r => length r = n
  | OutOfRange => False
  | OutOfFuel => True
  end.

(* ================================================================== *)
(** * The file system seen by [loadFromFile] *)
(* ================================================================== *)

(** A file name denotes the lines [std::getline] reads from it, or [None]
    when [std::ifstream::is_open] fails. *)
Definition filesystem := str → option (list str).

(** [std::string::empty]. *)
Definition empty (s : str) : bool := match s with [] => true | _ => false end.

(* ================================================================== *)
(** * [std::set<std::string>] *)
(* ================================================================== *)

(** [std::less<std::string>]: lexicographic on the bytes. *)
Fixpoint str_compare (a b : str) : comparison :=
  match a, b with
  | [], [] => Eq
  | [], _ :: _ => Lt
  | _ :: _, [] => Gt
  | x :: a', y :: b' =>
      match Nat.compare (nat_of_ascii x) (nat_of_ascii y) with
      | Eq => str_compare a' b'
      | o => o
      end
  end.

(** [std::set::insert] on the ordered, duplicate-free sequence the set is
    iterated in. *)
Fixpoint set_insert (w : str) (s : list str) : list str :=
  match s with
  | [] => [w]
  | x :: s' =>
      match str_compare w x with
      | Lt => w :: s
      | Eq => s
      | Gt => x :: set_insert w s'
      end
  end.

(** The built-in word list of the three literal engines. *)
Definition defaultWords : list str :=
  [lit "shit"; lit "fuck"; lit "damn"; lit "ass"; lit "bitch"; lit "bastard"].

(* ================================================================== *)
(** * [class SimpleReplacementFilter] *)
(* ================================================================== *)

Module SimpleReplacementFilter.

Record t : Type := mk {
  profanityList : list str;      (* in the iteration order of the set *)
  replacementChar : ascii
}.

(** The constructor. *)
Definition new (replacementChar : ascii) : t :=
  mk (foldl (λ s w, set_insert w s) [] defaultWords) replacementChar.

(** The [for] loop of [containsProfanity]. *)
Fixpoint any_found (lowerText : str) (words : list str) : bool :=
  match words with
  | [] => false
  | word :: words' =>
      match find lowerText word 0 with
      | Some _ => true
      | None => any_found lowerText words'
      end
  end.

Definition containsProfanity (f : t) (text : str) : bool :=
  any_found (toLower text) (profanityList f).

(** The [while] loop of [censor] for one word; [fuel] bounds the number
    of times its body runs. *)
Fixpoint scan_word (fuel : nat) (c : ascii) (lowerText word : str)
    (pos : nat) (result : str) : outcome str :=
  match find lowerText word pos with
  | None => Done result
  | Some pos' =>
      match fuel with
      | 0 => OutOfFuel
      | S fuel' =>
          result' ← fill c pos' (length word) result;
          scan_word fuel' c lowerText word (pos' + length word) result'
      end
  end.

(** The [for] loop of [censor] over the words. *)
Fixpoint scan_words (fuel : nat) (c : ascii) (lowerText : str)
    (words : list str) (result : str) : outcome str :=
  match words with
  | [] => Done result
  | word :: words' =>
      result' ← scan_word fuel c lowerText word 0 result;
      scan_words fuel c lowerText words' result'
  end.

Definition censor (fuel : nat) (f : t) (text : str) : outcome str :=
  scan_words fuel (replacementChar f) (toLower text) (profanityList f) text.

Definition addProfanity (f : t) (word : str) : t :=
  mk (set_insert (toLower word) (profanityList f)) (replacementChar f).

(** The [while (std::getline(file, word))] loop of [loadFromFile]. *)
Definition load_lines (f : t) (lines : list str) : t :=
  foldl (λ f word, if empty word then f else addProfanity f word) f lines.

Definition loadFromFile (fs : filesystem) (f : t) (filename : str) : t :=
  match fs filename with
  | None => f
  | Some lines => load_lines f lines
  end.

(** The positions at which the [while] loop of [censor] finds [word],
    starting the search at [pos]: each search resumes where the previous
    match ended. *)
Inductive hit (lowerText word : str) : nat → nat → Prop :=
| hit_here pos p :
    find lowerText word pos = Some p → hit lowerText word pos p
| hit_later pos p q :
    find lowerText word pos = Some p →
    hit lowerText word (p + length word) q →
    hit lowerText word pos q.

(** [masked f text k]: index [k] lies in a span the loops of [censor]
    find for some word of the list. *)
Definition masked (f : t) (text : str) (k : nat) : Prop :=
  ∃ word p, word ∈ profanityList f ∧ hit (toLower text) word 0 p ∧
            p ≤ k < p + length word.

(** [occurs_at word s p]: [word] occurs in [s] at index [p]. *)
Definition occurs_at (word s : str) (p : nat) : Prop :=
  p ≤ length s ∧ starts_with word (drop p s) = true.

End SimpleReplacementFilter.

(* ================================================================== *)
(** * [std::regex] *)
(* ================================================================== *)

(** The part of [<regex>] the program uses.  [compile p] is the constructor
    [std::regex(p, std::regex::icase)], [None] when it throws
    [std::regex_error].  [regex_search r s] is
    [std::regex_search(first, last, match, r)] over the character range [s]:
    [None] when there is no match, otherwise [match.position()] and
    [match.length()] of the match found. *)
Class StdRegex : Type := {
  regex : Type;
  compile : str → option regex;
  regex_search : regex → str → option (nat * nat)
}.

(** A match lies inside the range that was searched. *)
Definition search_in_range `{StdRegex} : Prop :=
  ∀ r s p n, regex_search r s = Some (p, n) → p + n ≤ length s.

(** [r] never matches the empty string. *)
Definition never_empty `{StdRegex} (r : regex) : Prop :=
  ∀ s p n, regex_search r s = Some (p, n) → 0 < n.

(* ================================================================== *)
(** * [class RegexFilter] *)
(* ================================================================== *)

Module RegexFilter.
Section Engine.
Context `{StdRegex}.

Record t : Type := mk {
  profanityPatterns : list regex;    (* std::vector, in registration order *)
  replacementChar : ascii
}.

(** [addPattern]: a pattern that does not compile is reported and skipped. *)
Definition addPattern (f : t) (pattern : str) : t :=
  match compile pattern with
  | Some r => mk (profanityPatterns f ++ [r]) (replacementChar f)
  | None => f
  end.

Definition defaultPatterns : list str :=
  [lit "shit"; lit "fuck"; lit "damn"; lit "ass"; lit "bitch";
   lit "bastard"; lit "f[aeiou*]+ck"; lit "sh[aeiou*]+t"].

Definition new (replacementChar : ascii) : t :=
  foldl addPattern (mk [] replacementChar) defaultPatterns.

Fixpoint any_match (lowerText : str) (patterns : list regex) : bool :=
  match patterns with
  | [] => false
  | pattern :: patterns' =>
      match regex_search pattern lowerText with
      | Some _ => true
      | None => any_match lowerText patterns'
      end
  end.

Definition containsProfanity (f : t) (text : str) : bool :=
  any_match (toLower text) (profanityPatterns f).

(** The [while] loop of [censor] for one pattern.  [searchStart] is the
    offset of the iterator of that name from [lowerText.cbegin()];
    [match.suffix().first] is the end of the match. *)
Fixpoint scan_pattern (fuel : nat) (c : ascii) (lowerText : str)
    (pattern : regex) (searchStart : nat) (result : str) : outcome str :=
  match regex_search pattern (drop searchStart lowerText) with
  | None => Done result
  | Some (position, length_) =>
      match fuel with
      | 0 => OutOfFuel
      | S fuel' =>
          let pos := position + searchStart in
          let result' := fill_guarded c pos length_ result in
          scan_pattern fuel' c lowerText pattern
            (searchStart + position + length_) result'
      end
  end.

Fixpoint scan_patterns (fuel : nat) (c : ascii) (lowerText : str)
    (patterns : list regex) (result : str) : outcome str :=
  match patterns with
  | [] => Done result
  | pattern :: patterns' =>
      result' ← scan_pattern fuel c lowerText pattern 0 result;
      scan_patterns fuel c lowerText patterns' result'
  end.

Definition censor (fuel : nat) (f : t) (text : str) : outcome str :=
  scan_patterns fuel (replacementChar f) (toLower text) (profanityPatterns f) text.

Definition addProfanity (f : t) (word : str) : t := addPattern f word.

Definition load_lines (f : t) (lines : list str) : t :=
  foldl (λ f word, if empty word then f else addPattern f word) f lines.

Definition loadFromFile (fs : filesystem) (f : t) (filename : str) : t :=
  match fs filename with
  | None => f
  | Some lines => load_lines f lines
  end.

(** The match spans [(pos, length)] the [while] loop of [censor] finds for
    [pattern] in [lowerText], searching from [searchStart]. *)
Inductive span_of (lowerText : str) (pattern : regex) : nat → nat * nat → Prop :=
| span_here searchStart position length_ :
    regex_search pattern (drop searchStart lowerText) = Some (position, length_) →
    span_of lowerText pattern searchStart (position + searchStart, length_)
| span_later searchStart position length_ sp :
    regex_search pattern (drop searchStart lowerText) = Some (position, length_) →
    span_of lowerText pattern (searchStart + position + length_) sp →
    span_of lowerText pattern searchStart sp.

(** [masked f text k]: index [k] lies in a span some pattern matches in
    the case-folded input text. *)
Definition masked (f : t) (text : str) (k : nat) : Prop :=
  ∃ pattern sp, pattern ∈ profanityPatterns f ∧
                span_of (toLower text) pattern 0 sp ∧ in_span k sp.

(** The reading of [censor] in which every pattern searches the string as
    masked so far: before each pattern the case-folded text is taken anew
    from the current [result]. *)
Fixpoint scan_patterns_progressive (fuel : nat) (c : ascii)
    (patterns : list regex) (result : str) : outcome str :=
  match patterns with
  | [] => Done result
  | pattern :: patterns' =>
      result' ← scan_pattern fuel c (toLower result) pattern 0 result;
      scan_patterns_progressive fuel c patterns' result'
  end.

Definition censor_progressive (fuel : nat) (f : t) (text : str) : outcome str :=
  scan_patterns_progressive fuel (replacementChar f) (profanityPatterns f) text.

End Engine.
Arguments t {_}.
End RegexFilter.

(* ================================================================== *)
(** * [class TrieNode], [class TrieFilter] *)
(* ================================================================== *)

(** Every node is reached through exactly one [shared_ptr], the one in its
    parent's [children], so the nodes form a tree. *)
Inductive TrieNode : Type := mkTrieNode {
  isEndOfWord : bool;
  children : gmap ascii TrieNode
}.

Module TrieFilter.

Record t : Type := mk {
  root : TrieNode;
  replacementChar : ascii
}.

(** [std::make_shared<TrieNode>()]. *)
Definition newNode : TrieNode := mkTrieNode false ∅.

(** [addToTrie], as the tree it leaves behind below [node]. *)
Fixpoint addToTrie (word : str) (node : TrieNode) : TrieNode :=
  match word with
  | [] => mkTrieNode true (children node)
  | c :: word' =>
      let child := default newNode (children node !! c) in
      mkTrieNode (isEndOfWord node) (<[c := addToTrie word' child]> (children node))
  end.

Definition new (replacementChar : ascii) : t :=
  mk (foldl (λ node word, addToTrie word node) newNode defaultWords) replacementChar.

(** The inner [for (j = i; ...)] loop of [containsProfanity]; [rest] is
    [lowerText] from index [j]. *)
Fixpoint reaches_word (node : TrieNode) (rest : str) : bool :=
  match rest with
  | [] => false
  | c :: rest' =>
      match children node !! c with
      | None => false
      | Some child =>
          if isEndOfWord child then true else reaches_word child rest'
      end
  end.

(** The outer [for (i = 0; ...)] loop of [containsProfanity]; [rest] is
    [lowerText] from index [i]. *)
Fixpoint any_start (root : TrieNode) (rest : str) : bool :=
  match rest with
  | [] => false
  | _ :: rest' => if reaches_word root rest then true else any_start root rest'
  end.

Definition containsProfanity (f : t) (text : str) : bool :=
  any_start (root f) (toLower text).

(** The inner [for (j = i; ...)] loop of [censor], with the variables of
    the source; [rest] is [lowerText] from index [j]. *)
Fixpoint walk (node : TrieNode) (rest : str) (i j : nat)
    (wordEnd : option nat) (wordLength : nat) : option nat * nat :=
  match rest with
  | [] => (wordEnd, wordLength)
  | c :: rest' =>
      match children node !! c with
      | None => (wordEnd, wordLength)
      | Some child =>
          if isEndOfWord child
          then walk child rest' i (S j) (Some j) (j - i + 1)
          else walk child rest' i (S j) wordEnd wordLength
      end
  end.

(** The outer [for (i = 0; i < lowerText.length(); ++i)] loop of [censor].
    [budget] bounds the number of times its body runs. *)
Fixpoint censor_loop (budget : nat) (root : TrieNode) (c : ascii)
    (lowerText : str) (i : nat) (result : str) : outcome str :=
  if decide (i < length lowerText) then
    match budget with
    | 0 => OutOfFuel
    | S budget' =>
        match walk root (drop i lowerText) i i None 0 with
        | (Some wordEnd, wordLength) =>
            result' ← fill c i wordLength result;
            censor_loop budget' root c lowerText (S wordEnd) result'
        | (None, _) =>
            censor_loop budget' root c lowerText (S i) result
        end
    end
  else Done result.

(** The index [i] only grows, so the body runs at most
    [lowerText.length()] times. *)
Definition censor (f : t) (text : str) : outcome str :=
  censor_loop (length text) (root f) (replacementChar f) (toLower text) 0 text.

Definition addProfanity (f : t) (word : str) : t :=
  mk (addToTrie (toLower word) (root f)) (replacementChar f).

Definition load_lines (f : t) (lines : list str) : t :=
  foldl (λ f word, if empty word then f else addProfanity f word) f lines.

Definition loadFromFile (fs : filesystem) (f : t) (filename : str) : t :=
  match fs filename with
  | None => f
  | Some lines => load_lines f lines
  end.

(** The start positions the outer loop of [censor] examines from index
    [i] on, each with the length of the match found there ([0] for none). *)
Fixpoint examined (budget : nat) (root : TrieNode) (lowerText : str)
    (i : nat) : list (nat * nat) :=
  if decide (i < length lowerText) then
    match budget with
    | 0 => []
    | S budget' =>
        match walk root (drop i lowerText) i i None 0 with
        | (Some wordEnd, wordLength) =>
            (i, wordLength) :: examined budget' root lowerText (S wordEnd)
        | (None, _) =>
            (i, 0) :: examined budget' root lowerText (S i)
        end
    end
  else [].

(** [spells node word]: the path [word] exists below [node] and ends in a
    node that is marked as the end of a word. *)
Fixpoint spells (node : TrieNode) (word : str) : bool :=
  match word with
  | [] => isEndOfWord node
  | c :: word' =>
      match children node !! c with
      | None => false
      | Some child => spells child word'
      end
  end.

(** The banned words of a trie filter: the words its trie spells. *)
Definition banned (f : t) (word : str) : Prop := spells (root f) word = true.

End TrieFilter.

(* ================================================================== *)
(** * [class HybridFilter] *)
(* ================================================================== *)

Module HybridFilter.
Section Engine.
Context `{StdRegex}.

Record t : Type := mk {
  simpleFilter : SimpleReplacementFilter.t;
  regexFilter : RegexFilter.t;
  trieFilter : TrieFilter.t;
  useSimpleFilter : bool;
  useRegexFilter : bool;
  useTrieFilter : bool
}.

Definition new (replacementChar : ascii) : t :=
  mk (SimpleReplacementFilter.new replacementChar)
     (RegexFilter.new replacementChar)
     (TrieFilter.new replacementChar)
     true true true.

Definition containsProfanity (f : t) (text : str) : bool :=
  if useSimpleFilter f && SimpleReplacementFilter.containsProfanity (simpleFilter f) text
  then true
  else if useRegexFilter f && RegexFilter.containsProfanity (regexFilter f) text
  then true
  else if useTrieFilter f && TrieFilter.containsProfanity (trieFilter f) text
  then true
  else false.

Definition censor (fuel : nat) (f : t) (text : str) : outcome str :=
  let result := text in
  result ← (if useSimpleFilter f
            then SimpleReplacementFilter.censor fuel (simpleFilter f) result
            else Done result);
  result ← (if useRegexFilter f
            then RegexFilter.censor fuel (regexFilter f) result
            else Done result);
  result ← (if useTrieFilter f
            then TrieFilter.censor (trieFilter f) result
            else Done result);
  Done result.

Definition addProfanity (f : t) (word : str) : t :=
  mk (SimpleReplacementFilter.addProfanity (simpleFilter f) word)
     (RegexFilter.addProfanity (regexFilter f) word)
     (TrieFilter.addProfanity (trieFilter f) word)
     (useSimpleFilter f) (useRegexFilter f) (useTrieFilter f).

Definition loadFromFile (fs : filesystem) (f : t) (filename : str) : t :=
  mk (SimpleReplacementFilter.loadFromFile fs (simpleFilter f) filename)
     (RegexFilter.loadFromFile fs (regexFilter f) filename)
     (TrieFilter.loadFromFile fs (trieFilter f) filename)
     (useSimpleFilter f) (useRegexFilter f) (useTrieFilter f).

Definition configureFilters (f : t) (useSimple useRegex useTrie : bool) : t :=
  mk (simpleFilter f) (regexFilter f) (trieFilter f) useSimple useRegex useTrie.

End Engine.
Arguments t {_}.
End HybridFilter.

(* ================================================================== *)
(** * [class ProfanityFilter]: the common interface *)
(* ================================================================== *)

(** The abstract base class, as the operations every filter provides.
    [censor] takes the iteration budget of the filter's [while] loops. *)
Class ProfanityFilter (F : Type) : Type := {
  containsProfanity : F → str → bool;
  censor : nat → F → str → outcome str;
  addProfanity : F → str → F;
  loadFromFile : filesystem → F → str → F
}.

#[global] Instance SimpleReplacementFilter_filter :
  ProfanityFilter SimpleReplacementFilter.t := {|
  containsProfanity := SimpleReplacementFilter.containsProfanity;
  censor := SimpleReplacementFilter.censor;
  addProfanity := SimpleReplacementFilter.addProfanity;
  loadFromFile := SimpleReplacementFilter.loadFromFile
|}.

#[global] Instance RegexFilter_filter `{StdRegex} : ProfanityFilter RegexFilter.t := {|
  containsProfanity := RegexFilter.containsProfanity;
  censor := RegexFilter.censor;
  addProfanity := RegexFilter.addProfanity;
  loadFromFile := RegexFilter.loadFromFile
|}.

#[global] Instance TrieFilter_filter : ProfanityFilter TrieFilter.t := {|
  containsProfanity := TrieFilter.containsProfanity;
  censor := λ _, TrieFilter.censor;
  addProfanity := TrieFilter.addProfanity;
  loadFromFile := TrieFilter.loadFromFile
|}.

#[global] Instance HybridFilter_filter `{StdRegex} : ProfanityFilter HybridFilter.t := {|
  containsProfanity := HybridFilter.containsProfanity;
  censor := HybridFilter.censor;
  addProfanity := HybridFilter.addProfanity;
  loadFromFile := HybridFilter.loadFromFile
|}.

(** Loading words into a filter: a sequence of calls of [addProfanity] and
    [loadFromFile]. *)
Inductive load_op : Type :=
| AddWord (word : str)
| LoadFile (filename : str).

Definition run_op {F} `{ProfanityFilter F} (fs : filesystem) (f : F) (op : load_op) : F :=
  match op with
  | AddWord word => addProfanity f word
  | LoadFile filename => loadFromFile fs f filename
  end.

Definition run_ops {F} `{ProfanityFilter F} (fs : filesystem) (ops : list load_op) (f : F) : F :=
  foldl (run_op fs) f ops.

(* ================================================================== *)
(** * A [std::regex] for the syntax of the default patterns *)
(* ================================================================== *)

(** The fragment of the ECMAScript grammar the built-in patterns are
    written in: literal characters, bracket expressions that list their
    characters, and the quantifier [+].  Matching is the backtracking,
    leftmost, greedy matching of ECMAScript, and it ignores case
    ([std::regex::icase]). *)
Module MiniRegex.

Inductive atom : Type :=
| AChar (c : ascii)
| AClass (cs : list ascii).

Inductive piece : Type :=
| One (a : atom)
| OneOrMore (a : atom).

(** Characters with a meaning of their own outside a bracket expression. *)
Definition special (c : ascii) : bool :=
  bool_decide (c ∈ lit "^$\.*+?()[]{}|").

(** Characters this fragment does not admit inside a bracket expression. *)
Definition special_in_class (c : ascii) : bool :=
  bool_decide (c ∈ lit "^-\[").

(** [parse s cls acc]: [cls] holds the characters of the bracket expression
    that is open, [acc] the pieces read so far, last first. *)
Fixpoint parse (s : str) (cls : option (list ascii)) (acc : list piece)
    : option (list piece) :=
  match s with
  | [] => match cls with None => Some (rev acc) | Some _ => None end
  | c :: s' =>
      match cls with
      | Some cs =>
          if decide (c = "]"%char)
          then match cs with
               | [] => None
               | _ => parse s' None (One (AClass (rev cs)) :: acc)
               end
          else if special_in_class c then None
          else parse s' (Some (c :: cs)) acc
      | None =>
          if decide (c = "["%char) then parse s' (Some []) acc
          else if decide (c = "+"%char)
          then match acc with
               | One a :: acc' => parse s' None (OneOrMore a :: acc')
               | _ => None
               end
          else if special c then None
          else parse s' None (One (AChar c) :: acc)
      end
  end.

Definition atom_matches (a : atom) (c : ascii) : bool :=
  match a with
  | AChar x => bool_decide (tolower x = tolower c)
  | AClass cs => existsb (λ x, bool_decide (tolower x = tolower c)) cs
  end.

(** [a+] followed by the continuation [k]: as many characters as possible
    first, one fewer when the rest does not match after them. *)
Fixpoint match_plus (a : atom) (k : str → option nat) (s : str) : option nat :=
  match s with
  | [] => None
  | c :: s' =>
      if atom_matches a c
      then match match_plus a k s' with
           | Some n => Some (S n)
           | None => S <$> k s'
           end
      else None
  end.

(** The length of the match of the pieces at the start of [s]. *)
Fixpoint match_here (ps : list piece) (s : str) : option nat :=
  match ps with
  | [] => Some 0
  | One a :: ps' =>
      match s with
      | c :: s' => if atom_matches a c then S <$> match_here ps' s' else None
      | [] => None
      end
  | OneOrMore a :: ps' => match_plus a (match_here ps') s
  end.

(** The leftmost match in [s]; [position] counts from the start of the
    range that is searched. *)
Fixpoint search (ps : list piece) (s : str) (position : nat) : option (nat * nat) :=
  match match_here ps s with
  | Some n => Some (position, n)
  | None =>
      match s with
      | [] => None
      | _ :: s' => search ps s' (S position)
      end
  end.

#[global] Instance std_regex : StdRegex := {|
  regex := list piece;
  compile := λ pattern, parse pattern None [];
  regex_search := λ r s, search r s 0
|}.

End MiniRegex.

(* ================================================================== *)
(** * Notions the further properties are stated with *)
(* ================================================================== *)

(** [when_done P o]: if the call returned, its result satisfies [P]. *)
Definition when_done (P : str → Prop) (o : outcome str) : Prop :=
  match o with
  | Done r => P r
  | OutOfRange => True
  | OutOfFuel => True
  end.

(** [masks_only c text r]: [r] is [text] with some characters replaced by
    [c]; every other character is the one of [text], in its letter case. *)
Definition masks_only (c : ascii) (text r : str) : Prop :=
  length r = length text ∧ ∀ k, r !! k = text !! k ∨ r !! k = Some c.

(** The order of [std::less<std::string>]. *)
Definition str_lt (a b : str) : Prop := str_compare a b = Lt.

(** [c], case-folded, is a character of none of the words. *)
Definition mask_free (c : ascii) (banned : str → Prop) : Prop :=
  ∀ word, banned word → tolower c ∉ word.

(** The three filters of a composite mask with the same character, as the
    constructor sets them up. *)
Definition hybrid_mask `{StdRegex} (h : HybridFilter.t) (c : ascii) : Prop :=
  SimpleReplacementFilter.replacementChar (HybridFilter.simpleFilter h) = c
  ∧ RegexFilter.replacementChar (HybridFilter.regexFilter h) = c
  ∧ TrieFilter.replacementChar (HybridFilter.trieFilter h) = c.

(** [same_letter a b]: the bytes [a] and [b] are equal, or one is an ASCII
    upper-case letter and the other the lower-case letter 32 places above. *)
Definition same_letter (a b : ascii) : Prop :=
  a = b
  ∨ (65 ≤ nat_of_ascii a ≤ 90 ∧ nat_of_ascii b = nat_of_ascii a + 32)
  ∨ (65 ≤ nat_of_ascii b ≤ 90 ∧ nat_of_ascii a = nat_of_ascii b + 32).

(** The lines [loadFromFile] passes on: the non-empty ones. *)
Definition loaded_lines (fs : filesystem) (filename : str) : list str :=
  match fs filename with
  | None => []
  | Some lines => filter (λ line, line ≠ []) lines
  end.

(* ================================================================== *)
(** * The source's sample runs *)
(* ================================================================== *)

Example simple_sample :
  SimpleReplacementFilter.censor 28 (SimpleReplacementFilter.new "*")
    (lit "What the fuck are you doing?") = Done (lit "What the **** are you doing?").
Proof. vm_compute. reflexivity. Qed.

Example simple_sample_class :
  SimpleReplacementFilter.censor 5 (SimpleReplacementFilter.new "*")
    (lit "Class") = Done (lit "Cl***").
Proof. vm_compute. reflexivity. Qed.

Example regex_sample :
  RegexFilter.censor 24 (RegexFilter.new "*")
    (lit "This is F*cking amazing!") = Done (lit "This is ****ing amazing!").
Proof. vm_compute. reflexivity. Qed.

Example regex_sample_detect :
  RegexFilter.containsProfanity (RegexFilter.new "*") (lit "What a sh*tty day!") = true
  ∧ SimpleReplacementFilter.containsProfanity (SimpleReplacementFilter.new "*")
      (lit "What a sh*tty day!") = false.
Proof. vm_compute. done. Qed.

Example trie_sample :
  TrieFilter.censor (TrieFilter.new "*")
    (lit "You're such a BASTARD!") = Done (lit "You're such a *******!").
Proof. vm_compute. reflexivity. Qed.

Example hybrid_sample :
  HybridFilter.censor 30 (HybridFilter.new "*")
    (lit "Hello, how are you today?") = Done (lit "Hello, how are you today?")
  ∧ HybridFilter.containsProfanity (HybridFilter.new "*")
      (lit "Hello, how are you today?") = false.
Proof. vm_compute. done. Qed.

(* ================================================================== *)
(** * Strings: case folding, [find] and the masking loops *)
(* ================================================================== *)

Lemma length_toLower s : length (toLower s) = length s.
Proof. unfold toLower. by rewrite length_map. Qed.

Lemma starts_with_prefix w s : starts_with w s = true ↔ w `prefix_of` s.
Proof.
  revert s. induction w as [|a w IH]; intros [|b s]; simpl.
  - split; [intros _; apply prefix_nil | done].
  - split; [intros _; apply prefix_nil | done].
  - split; [done | intros Hp; by apply prefix_nil_not in Hp].
  - case_decide as Hab.
    + subst b. rewrite IH. split.
      * intros Hp. by apply prefix_cons.
      * intros Hp. by apply prefix_cons_inv_2 in Hp.
    + split; [done | intros Hp; by apply prefix_cons_inv_1 in Hp].
Qed.

Lemma starts_with_length w s : starts_with w s = true → length w ≤ length s.
Proof. rewrite starts_with_prefix. apply prefix_length. Qed.

Lemma starts_with_take w s : starts_with w s = true → take (length w) s = w.
Proof.
  rewrite starts_with_prefix. intros [k ->]. by rewrite take_app_length.
Qed.

Lemma starts_with_take_self n s : n ≤ length s → starts_with (take n s) s = true.
Proof. intros _. apply starts_with_prefix, prefix_take. Qed.

Lemma find_in_Some w rest at_ p :
  find_in w rest at_ = Some p →
  at_ ≤ p ∧ p - at_ ≤ length rest ∧ starts_with w (drop (p - at_) rest) = true.
Proof.
  revert at_. induction rest as [|x rest IH]; intros at_; simpl.
  - destruct (starts_with w []) eqn:Hs; [|done].
    intros [= <-]. rewrite Nat.sub_diag. simpl. auto with lia.
  - destruct (starts_with w (x :: rest)) eqn:Hs.
    + intros [= <-]. rewrite Nat.sub_diag. simpl. auto with lia.
    + intros Hf. apply IH in Hf as (Hle & Hlen & Hst).
      replace (p - at_) with (S (p - S at_)) by lia. simpl. auto with lia.
Qed.

Lemma find_in_None w rest at_ n :
  find_in w rest at_ = None → n ≤ length rest → starts_with w (drop n rest) = false.
Proof.
  revert at_ n. induction rest as [|x rest IH]; intros at_ n; simpl.
  - destruct (starts_with w []) eqn:Hs; [done|].
    intros _ Hn. by replace n with 0 by lia.
  - destruct (starts_with w (x :: rest)) eqn:Hs; [done|].
    intros Hf Hn. destruct n as [|n]; [done|].
    simpl. eapply IH; [done | lia].
Qed.

Lemma find_Some s w pos p :
  find s w pos = Some p →
  pos ≤ p ∧ p + length w ≤ length s ∧ starts_with w (drop p s) = true.
Proof.
  unfold find. case_decide as Hpos; [|done].
  intros Hf. apply find_in_Some in Hf as (Hle & Hlen & Hst).
  rewrite drop_drop in Hst. replace (pos + (p - pos)) with p in Hst by lia.
  rewrite length_drop in Hlen.
  pose proof (starts_with_length _ _ Hst) as Hw. rewrite length_drop in Hw.
  auto with lia.
Qed.

Lemma find_None s w pos p :
  find s w pos = None → pos ≤ p ≤ length s → starts_with w (drop p s) = false.
Proof.
  unfold find. case_decide as Hpos; [|lia].
  intros Hf Hp.
  pose proof (find_in_None w (drop pos s) pos (p - pos) Hf) as Hn.
  rewrite length_drop, drop_drop in Hn.
  replace (pos + (p - pos)) with p in Hn by lia. apply Hn. lia.
Qed.

Lemma length_fill_guarded c pos n r : length (fill_guarded c pos n r) = length r.
Proof.
  revert pos r. induction n as [|n IH]; intros pos r; simpl; [done|].
  case_decide; [|done]. by rewrite IH, length_insert.
Qed.

Lemma lookup_fill_guarded c pos n r k :
  fill_guarded c pos n r !! k =
    if decide (pos ≤ k < pos + n ∧ k < length r) then Some c else r !! k.
Proof.
  revert pos r. induction n as [|n IH]; intros pos r; simpl.
  - case_decide; [lia | done].
  - destruct (decide (pos < length r)) as [Hpos|Hpos].
    + rewrite IH, length_insert.
      destruct (decide (k = pos)) as [->|Hk].
      * rewrite decide_False by lia. rewrite decide_True by lia.
        by apply list_lookup_insert_eq.
      * rewrite list_lookup_insert_ne by done.
        repeat case_decide; (done || lia).
    + case_decide as Hc; [|done]. lia.
Qed.

Lemma fill_Done c pos n r :
  pos + n ≤ length r → fill c pos n r = Done (fill_guarded c pos n r).
Proof.
  revert pos r. induction n as [|n IH]; intros pos r Hlen; simpl; [done|].
  unfold store. rewrite !decide_True by lia. simpl.
  apply IH. rewrite length_insert. lia.
Qed.

Lemma fill_inv c pos n r r' :
  fill c pos n r = Done r' → r' = fill_guarded c pos n r ∧ (n = 0 ∨ pos + n ≤ length r).
Proof.
  revert pos r. induction n as [|n IH]; intros pos r; simpl.
  - intros [= <-]. auto.
  - unfold store. case_decide as Hpos; [|done]. simpl.
    intros Hf. apply IH in Hf as [-> Hn]. split; [done|].
    right. rewrite length_insert in Hn. lia.
Qed.

(** A write beyond the end of [result] is reported, not ignored. *)
Lemma fill_OutOfRange c pos n r :
  0 < n → length r < pos + n → fill c pos n r = OutOfRange.
Proof.
  revert pos r. induction n as [|n IH]; intros pos r Hn Hlen; simpl; [lia|].
  unfold store. case_decide as Hpos; [|done]. simpl.
  apply IH; [lia | rewrite length_insert; lia].
Qed.

(* ================================================================== *)
(** * [std::set<std::string>]: membership *)
(* ================================================================== *)

Lemma nat_of_ascii_inj a b : nat_of_ascii a = nat_of_ascii b → a = b.
Proof.
  intros Hab. rewrite <- (ascii_nat_embedding a), <- (ascii_nat_embedding b).
  by rewrite Hab.
Qed.

Lemma str_compare_Eq a b : str_compare a b = Eq → a = b.
Proof.
  revert b. induction a as [|x a IH]; intros [|y b]; simpl; try done.
  destruct (Nat.compare_spec (nat_of_ascii x) (nat_of_ascii y)) as [Hxy| |]; try done.
  intros Hc. f_equal; [by apply nat_of_ascii_inj | by apply IH].
Qed.

Lemma elem_of_set_insert w x s : w ∈ set_insert x s ↔ w = x ∨ w ∈ s.
Proof.
  induction s as [|y s IH]; simpl.
  - rewrite list_elem_of_singleton, elem_of_nil. tauto.
  - destruct (str_compare x y) eqn:Hc.
    + apply str_compare_Eq in Hc as ->. rewrite elem_of_cons. tauto.
    + rewrite !elem_of_cons. tauto.
    + rewrite !elem_of_cons, IH. tauto.
Qed.

(* ================================================================== *)
(** * [SimpleReplacementFilter]: the scanning loops *)
(* ================================================================== *)

Section simple_loops.
Import SimpleReplacementFilter.
Context (c : ascii) (lowerText : str).

Lemma simple_hit_inv word pos q :
  hit lowerText word pos q →
  ∃ p, find lowerText word pos = Some p ∧
       (q = p ∨ hit lowerText word (p + length word) q).
Proof. intros Hh. inversion Hh; subst; eauto. Qed.

(** Every position the loop finds is an occurrence of the word. *)
Lemma simple_hit_occurs word pos q :
  hit lowerText word pos q → pos ≤ q ∧ occurs_at word lowerText q.
Proof.
  induction 1 as [pos p Hf | pos p q Hf _ IH].
  - apply find_Some in Hf as (? & ? & ?). unfold occurs_at. auto with lia.
  - apply find_Some in Hf as (? & ? & ?). destruct IH as [? ?]. auto with lia.
Qed.

Lemma simple_scan_word_spec fuel word pos r :
  word ≠ [] → length r = length lowerText → length lowerText - pos ≤ fuel →
  ∃ r', scan_word fuel c lowerText word pos r = Done r'
      ∧ length r' = length r
      ∧ (∀ k q, hit lowerText word pos q → q ≤ k < q + length word →
                r' !! k = Some c)
      ∧ (∀ k, (∀ q, hit lowerText word pos q → ¬ q ≤ k < q + length word) →
              r' !! k = r !! k)
      ∧ (∀ k, r !! k = Some c → r' !! k = Some c).
Proof.
  intros Hw. assert (0 < length word) as Hwl by (destruct word; [done | simpl; lia]).
  revert pos r. induction fuel as [|fuel IH]; intros pos r Hlen Hfuel; simpl;
    destruct (find lowerText word pos) as [p|] eqn:Hf.
  - apply find_Some in Hf. lia.
  - exists r. repeat split; try done.
    intros k q Hh. apply simple_hit_inv in Hh as (p & Hp & _). congruence.
  - pose proof (find_Some _ _ _ _ Hf) as (Hle & Hend & _).
    rewrite fill_Done by lia. simpl.
    destruct (IH (p + length word) (fill_guarded c p (length word) r))
      as (r' & Hrun & Hlen' & Hin & Hout & Hkeep).
    { by rewrite length_fill_guarded. }
    { lia. }
    exists r'. split; [done|]. split; [by rewrite Hlen', length_fill_guarded|].
    split; [|split].
    + intros k q Hh Hk. apply simple_hit_inv in Hh as (p0 & Hp0 & [->|Hh]).
      * assert (p0 = p) as -> by congruence.
        apply Hkeep. rewrite lookup_fill_guarded. rewrite decide_True; [done | lia].
      * assert (p0 = p) as -> by congruence. by eapply Hin.
    + intros k Hk. rewrite Hout.
      * rewrite lookup_fill_guarded. rewrite decide_False; [done|].
        intros [Hr _]. eapply Hk; [by apply hit_here | done].
      * intros q Hh. apply Hk. by eapply hit_later.
    + intros k Hk. apply Hkeep. rewrite lookup_fill_guarded.
      by case_decide.
  - exists r. repeat split; try done.
    intros k q Hh. apply simple_hit_inv in Hh as (p & Hp & _). congruence.
Qed.

Lemma simple_scan_words_spec fuel words r :
  Forall (λ word, word ≠ []) words →
  length r = length lowerText → length lowerText ≤ fuel →
  ∃ r', scan_words fuel c lowerText words r = Done r'
      ∧ length r' = length r
      ∧ (∀ k word q, word ∈ words → hit lowerText word 0 q →
                     q ≤ k < q + length word → r' !! k = Some c)
      ∧ (∀ k, (∀ word q, word ∈ words → hit lowerText word 0 q →
                         ¬ q ≤ k < q + length word) → r' !! k = r !! k)
      ∧ (∀ k, r !! k = Some c → r' !! k = Some c).
Proof.
  intros Hws. revert r. induction Hws as [|word words Hw Hws IH];
    intros r Hlen Hfuel; simpl.
  - exists r. repeat split; try done. intros k word q Hin. by apply elem_of_nil in Hin.
  - destruct (simple_scan_word_spec fuel word 0 r Hw Hlen ltac:(lia))
      as (r1 & -> & Hlen1 & Hin1 & Hout1 & Hkeep1). simpl.
    destruct (IH r1 ltac:(congruence) Hfuel)
      as (r' & Hrun & Hlen' & Hin & Hout & Hkeep).
    exists r'. split; [done|]. split; [congruence|]. split; [|split].
    + intros k w q Hel Hh Hk. apply elem_of_cons in Hel as [->|Hel].
      * apply Hkeep. by eapply Hin1.
      * by eapply Hin.
    + intros k Hk. rewrite Hout.
      * apply Hout1. intros q Hh. apply Hk; [left | done].
      * intros w q Hel. apply Hk. by right.
    + intros k Hk. by apply Hkeep, Hkeep1.
Qed.

(** More fuel does not change a result. *)
Lemma simple_scan_word_fuel fuel fuel' word pos r r' :
  scan_word fuel c lowerText word pos r = Done r' → fuel ≤ fuel' →
  scan_word fuel' c lowerText word pos r = Done r'.
Proof.
  revert fuel' pos r. induction fuel as [|fuel IH]; intros fuel' pos r; simpl;
    destruct (find lowerText word pos) as [p|] eqn:Hf; try done.
  - intros Hr _. destruct fuel'; simpl; by rewrite Hf.
  - intros Hr Hle. destruct fuel' as [|fuel']; [lia|]. simpl. rewrite Hf.
    destruct (fill c p (length word) r) as [r1| |]; simpl in *; try done.
    apply IH; [done | lia].
  - intros Hr _. destruct fuel'; simpl; by rewrite Hf.
Qed.

Lemma simple_scan_words_fuel fuel fuel' words r r' :
  scan_words fuel c lowerText words r = Done r' → fuel ≤ fuel' →
  scan_words fuel' c lowerText words r = Done r'.
Proof.
  intros Hr Hle. revert r Hr. induction words as [|word words IH]; intros r; simpl; [done|].
  destruct (scan_word fuel c lowerText word 0 r) as [r1| |] eqn:H1; simpl; try done.
  rewrite (simple_scan_word_fuel _ _ _ _ _ _ H1 Hle). simpl. apply IH.
Qed.

(** With the empty word the search position never advances. *)
Lemma simple_scan_empty_word fuel pos r :
  pos ≤ length lowerText → scan_word fuel c lowerText [] pos r = OutOfFuel.
Proof.
  intros Hpos. revert r. induction fuel as [|fuel IH]; intros r; simpl.
  - unfold find. rewrite decide_True by done. by destruct (drop pos lowerText).
  - unfold find. rewrite decide_True by done.
    replace (find_in [] (drop pos lowerText) pos) with (Some pos)
      by (by destruct (drop pos lowerText)).
    simpl. rewrite Nat.add_0_r. apply IH.
Qed.

(** A text in which no word is found is returned as it is. *)
Lemma simple_scan_words_clean fuel words r :
  any_found lowerText words = false →
  scan_words fuel c lowerText words r = Done r.
Proof.
  induction words as [|word words IH]; simpl; [done|].
  destruct (find lowerText word 0) eqn:Hf; [done|].
  intros Hno. destruct fuel; simpl; rewrite Hf; simpl; by apply IH.
Qed.

Lemma simple_any_found_true words :
  any_found lowerText words = true ↔
  ∃ word p, word ∈ words ∧ occurs_at word lowerText p.
Proof.
  induction words as [|word words IH]; simpl.
  - split; [done | intros (? & ? & Hin & _); by apply elem_of_nil in Hin].
  - destruct (find lowerText word 0) as [p|] eqn:Hf.
    + split; [intros _ | done]. apply find_Some in Hf as (_ & Hlen & Hst).
      exists word, p. split; [by left|]. split; [lia | done].
    + rewrite IH. split.
      * intros (w & p & Hin & Ho). exists w, p. split; [by right | done].
      * intros (w & p & Hin & Hp & Hst). apply elem_of_cons in Hin as [->|Hin].
        -- rewrite (find_None _ _ 0 p Hf) in Hst; [done | lia].
        -- exists w, p. by repeat split.
Qed.

End simple_loops.

(* ================================================================== *)
(** * [RegexFilter]: the scanning loops *)
(* ================================================================== *)

Section regex_loops.
Import RegexFilter.
Context `{StdRegex} (c : ascii) (lowerText : str).

Lemma regex_span_inv pattern searchStart sp :
  span_of lowerText pattern searchStart sp →
  ∃ position length_,
    regex_search pattern (drop searchStart lowerText) = Some (position, length_) ∧
    (sp = (position + searchStart, length_) ∨
     span_of lowerText pattern (searchStart + position + length_) sp).
Proof. intros Hs. inversion Hs; subst; eauto 6. Qed.

Lemma regex_scan_pattern_spec fuel pattern searchStart r :
  search_in_range → never_empty pattern →
  length r = length lowerText → length lowerText - searchStart ≤ fuel →
  ∃ r', scan_pattern fuel c lowerText pattern searchStart r = Done r'
      ∧ length r' = length r
      ∧ (∀ k sp, span_of lowerText pattern searchStart sp → in_span k sp →
                 r' !! k = Some c)
      ∧ (∀ k, (∀ sp, span_of lowerText pattern searchStart sp → ¬ in_span k sp) →
              r' !! k = r !! k)
      ∧ (∀ k, r !! k = Some c → r' !! k = Some c).
Proof.
  intros Hrange Hne.
  revert searchStart r. induction fuel as [|fuel IH]; intros start r Hlen Hfuel; simpl;
    destruct (regex_search pattern (drop start lowerText)) as [[p n]|] eqn:Hf.
  - pose proof (Hrange _ _ _ _ Hf) as Hr. pose proof (Hne _ _ _ Hf) as Hn.
    rewrite length_drop in Hr. lia.
  - exists r. repeat split; try done.
    intros k sp Hs. apply regex_span_inv in Hs as (? & ? & ? & _). congruence.
  - pose proof (Hrange _ _ _ _ Hf) as Hr. pose proof (Hne _ _ _ Hf) as Hn.
    rewrite length_drop in Hr.
    destruct (IH (start + p + n) (fill_guarded c (p + start) n r))
      as (r' & Hrun & Hlen' & Hin & Hout & Hkeep).
    { by rewrite length_fill_guarded. }
    { lia. }
    exists r'. split; [done|]. split; [by rewrite Hlen', length_fill_guarded|].
    split; [|split].
    + intros k sp Hs Hk. apply regex_span_inv in Hs as (p0 & n0 & Hp0 & [->|Hs]).
      * assert (p0 = p ∧ n0 = n) as [-> ->] by (split; congruence).
        unfold in_span in Hk. simpl in Hk.
        apply Hkeep. rewrite lookup_fill_guarded. rewrite decide_True; [done | lia].
      * assert (p0 = p ∧ n0 = n) as [-> ->] by (split; congruence). by eapply Hin.
    + intros k Hk. rewrite Hout.
      * rewrite lookup_fill_guarded. rewrite decide_False; [done|].
        intros [Hr' _]. eapply Hk; [by apply span_here | done].
      * intros sp Hs. apply Hk. by eapply span_later.
    + intros k Hk. apply Hkeep. rewrite lookup_fill_guarded. by case_decide.
  - exists r. repeat split; try done.
    intros k sp Hs. apply regex_span_inv in Hs as (? & ? & ? & _). congruence.
Qed.

Lemma regex_scan_patterns_spec fuel patterns r :
  search_in_range → Forall never_empty patterns →
  length r = length lowerText → length lowerText ≤ fuel →
  ∃ r', scan_patterns fuel c lowerText patterns r = Done r'
      ∧ length r' = length r
      ∧ (∀ k pattern sp, pattern ∈ patterns → span_of lowerText pattern 0 sp →
                         in_span k sp → r' !! k = Some c)
      ∧ (∀ k, (∀ pattern sp, pattern ∈ patterns → span_of lowerText pattern 0 sp →
                             ¬ in_span k sp) → r' !! k = r !! k)
      ∧ (∀ k, r !! k = Some c → r' !! k = Some c).
Proof.
  intros Hrange Hps. revert r. induction Hps as [|pattern patterns Hp Hps IH];
    intros r Hlen Hfuel; simpl.
  - exists r. repeat split; try done. intros k p sp Hin. by apply elem_of_nil in Hin.
  - destruct (regex_scan_pattern_spec fuel pattern 0 r Hrange Hp Hlen ltac:(lia))
      as (r1 & -> & Hlen1 & Hin1 & Hout1 & Hkeep1). simpl.
    destruct (IH r1 ltac:(congruence) Hfuel)
      as (r' & Hrun & Hlen' & Hin & Hout & Hkeep).
    exists r'. split; [done|]. split; [congruence|]. split; [|split].
    + intros k p sp Hel Hs Hk. apply elem_of_cons in Hel as [->|Hel].
      * apply Hkeep. by eapply Hin1.
      * by eapply Hin.
    + intros k Hk. rewrite Hout.
      * apply Hout1. intros sp Hs. apply (Hk pattern sp); [left | done].
      * intros p sp Hel. apply (Hk p sp). by right.
    + intros k Hk. by apply Hkeep, Hkeep1.
Qed.

Lemma regex_scan_pattern_fuel fuel fuel' pattern searchStart r r' :
  scan_pattern fuel c lowerText pattern searchStart r = Done r' → fuel ≤ fuel' →
  scan_pattern fuel' c lowerText pattern searchStart r = Done r'.
Proof.
  revert fuel' searchStart r. induction fuel as [|fuel IH]; intros fuel' start r; simpl;
    destruct (regex_search pattern (drop start lowerText)) as [[p n]|] eqn:Hf; try done.
  - intros Hr _. destruct fuel'; simpl; by rewrite Hf.
  - intros Hr Hle. destruct fuel' as [|fuel']; [lia|]. simpl. rewrite Hf.
    apply IH; [done | lia].
  - intros Hr _. destruct fuel'; simpl; by rewrite Hf.
Qed.

Lemma regex_scan_patterns_fuel fuel fuel' patterns r r' :
  scan_patterns fuel c lowerText patterns r = Done r' → fuel ≤ fuel' →
  scan_patterns fuel' c lowerText patterns r = Done r'.
Proof.
  intros Hr Hle. revert r Hr. induction patterns as [|p ps IH]; intros r; simpl; [done|].
  destruct (scan_pattern fuel c lowerText p 0 r) as [r1| |] eqn:H1; simpl; try done.
  rewrite (regex_scan_pattern_fuel _ _ _ _ _ _ H1 Hle). simpl. apply IH.
Qed.

(** A text no pattern matches is returned as it is. *)
Lemma regex_scan_patterns_clean fuel patterns r :
  any_match lowerText patterns = false →
  scan_patterns fuel c lowerText patterns r = Done r.
Proof.
  induction patterns as [|p ps IH]; simpl; [done|].
  destruct (regex_search p lowerText) eqn:Hf; [done|].
  intros Hno. destruct fuel; simpl; rewrite drop_0, Hf; simpl; by apply IH.
Qed.

End regex_loops.

(* ================================================================== *)
(** * [TrieFilter]: the trie and the scanning loops *)
(* ================================================================== *)

Section trie_loops.
Import TrieFilter.

Lemma trie_spells_newNode word : spells newNode word = false.
Proof. by destruct word. Qed.

(** [addToTrie] marks the path of the word and no other. *)
Lemma trie_spells_addToTrie word node w :
  spells (addToTrie word node) w = true ↔ w = word ∨ spells node w = true.
Proof.
  revert node w. induction word as [|x word IH]; intros node w; simpl.
  - destruct w as [|y w]; simpl; [tauto|]. split; [tauto|]. by intros [|].
  - destruct w as [|y w]; simpl.
    + split; [tauto|]. by intros [|].
    + destruct (decide (x = y)) as [->|Hxy].
      * rewrite lookup_insert_eq, IH.
        destruct (children node !! y) as [child|]; simpl.
        -- split; (intros [->|]; [by left | by right]) || idtac.
           intros [Heq|Hs]; [left; congruence | by right].
        -- rewrite trie_spells_newNode. split.
           ++ intros [->|]; [by left | done].
           ++ intros [Heq|]; [left; congruence | done].
      * rewrite lookup_insert_ne by done. split; [tauto|].
        intros [Heq|]; [congruence | done].
Qed.

Lemma trie_walk_clean node rest i j wordEnd wordLength :
  reaches_word node rest = false →
  walk node rest i j wordEnd wordLength = (wordEnd, wordLength).
Proof.
  revert node j. induction rest as [|x rest IH]; intros node j; simpl; [done|].
  destruct (children node !! x) as [child|]; [|done].
  destruct (isEndOfWord child); [done|]. apply IH.
Qed.

Lemma trie_reaches_word_spells node rest :
  reaches_word node rest = true ↔
  ∃ n, 0 < n ≤ length rest ∧ spells node (take n rest) = true.
Proof.
  revert node. induction rest as [|x rest IH]; intros node; simpl.
  - split; [done | intros (n & ? & _); lia].
  - destruct (children node !! x) as [child|] eqn:Hch.
    + destruct (isEndOfWord child) eqn:Hend.
      * split; [intros _ | done]. exists 1. simpl. rewrite Hch. simpl.
        split; [lia | done].
      * rewrite IH. split.
        -- intros (n & Hn & Hs). exists (S n). simpl. rewrite Hch.
           split; [lia | done].
        -- intros ([|n] & Hn & Hs); [lia|]. simpl in Hs. rewrite Hch in Hs.
           destruct n as [|n].
           ++ rewrite ?take_0 in Hs. simpl in Hs. congruence.
           ++ exists (S n). split; [lia | done].
    + split; [done|]. intros ([|n] & Hn & Hs); [lia|].
      simpl in Hs. by rewrite Hch in Hs.
Qed.

(** The inner loop of [censor] records the last end of a word on the path
    it follows: the longest word of the trie that starts [rest]. *)
Lemma trie_walk_spec node rest i j wordEnd wordLength :
  i ≤ j →
  (walk node rest i j wordEnd wordLength = (wordEnd, wordLength) ∧
   ∀ n, 0 < n ≤ length rest → spells node (take n rest) = false)
  ∨ (∃ n, 0 < n ≤ length rest ∧ spells node (take n rest) = true ∧
          (∀ m, n < m ≤ length rest → spells node (take m rest) = false) ∧
          walk node rest i j wordEnd wordLength = (Some (j + n - 1), j + n - i)).
Proof.
  revert node j wordEnd wordLength.
  induction rest as [|x rest IH]; intros node j wordEnd wordLength Hij; simpl.
  - left. split; [done|]. intros n Hn. lia.
  - destruct (children node !! x) as [child|] eqn:Hch.
    + assert (∀ n, spells node (take (S n) (x :: rest)) = spells child (take n rest))
        as Hstep by (intros n; simpl; by rewrite Hch).
      destruct (isEndOfWord child) eqn:Hend.
      * right.
        destruct (IH child (S j) (Some j) (j - i + 1) ltac:(lia))
          as [[Hw Hno] | (n & Hn & Hs & Hmax & Hw)].
        -- exists 1. split; [simpl; lia|]. split; [|split].
           ++ rewrite Hstep, ?take_0. done.
           ++ intros [|m] Hm; [lia|]. rewrite Hstep. apply Hno. simpl in Hm. lia.
           ++ rewrite Hw. f_equal; [f_equal|]; lia.
        -- exists (S n). split; [simpl; lia|]. split; [|split].
           ++ by rewrite Hstep.
           ++ intros [|m] Hm; [lia|]. rewrite Hstep. apply Hmax. simpl in Hm. lia.
           ++ rewrite Hw. f_equal; [f_equal|]; lia.
      * destruct (IH child (S j) wordEnd wordLength ltac:(lia))
          as [[Hw Hno] | (n & Hn & Hs & Hmax & Hw)].
        -- left. split; [done|]. intros [|n] Hn; [lia|]. rewrite Hstep.
           destruct n as [|n]; [by rewrite ?take_0|]. apply Hno. simpl in Hn. lia.
        -- right. exists (S n). split; [simpl; lia|]. split; [|split].
           ++ by rewrite Hstep.
           ++ intros [|m] Hm; [lia|]. rewrite Hstep. apply Hmax. simpl in Hm. lia.
           ++ rewrite Hw. f_equal; [f_equal|]; lia.
    + left. split; [done|]. intros [|n] Hn; [lia|]. simpl. by rewrite Hch.
Qed.

(** The two outcomes of the inner loop as the outer loop starts it. *)
Lemma trie_walk_found root rest i wordEnd wordLength :
  walk root rest i i None 0 = (Some wordEnd, wordLength) →
  0 < wordLength ≤ length rest ∧ S wordEnd = i + wordLength ∧
  spells root (take wordLength rest) = true ∧
  ∀ m, wordLength < m ≤ length rest → spells root (take m rest) = false.
Proof.
  intros Hw.
  destruct (trie_walk_spec root rest i i None 0 (Nat.le_refl i))
    as [[Hw' _] | (n & Hn & Hs & Hmax & Hw')]; rewrite Hw' in Hw; [done|].
  injection Hw as <- <-.
  replace (i + n - i) with n by lia. repeat split; try done; lia.
Qed.

Lemma trie_walk_none root rest i wordLength :
  walk root rest i i None 0 = (None, wordLength) →
  wordLength = 0 ∧ ∀ n, 0 < n ≤ length rest → spells root (take n rest) = false.
Proof.
  intros Hw.
  destruct (trie_walk_spec root rest i i None 0 (Nat.le_refl i))
    as [[Hw' Hno] | (n & Hn & Hs & Hmax & Hw')]; rewrite Hw' in Hw; [|done].
  injection Hw as <-. done.
Qed.

End trie_loops.

Lemma trie_any_start_cons root x rest :
  TrieFilter.any_start root (x :: rest) =
    if TrieFilter.reaches_word root (x :: rest) then true
    else TrieFilter.any_start root rest.
Proof. done. Qed.

Section trie_scan.
Import TrieFilter.
Context (root : TrieNode) (c : ascii) (lowerText : str).

Lemma trie_censor_loop_spec budget i r :
  length r = length lowerText → length lowerText - i ≤ budget →
  ∃ r', censor_loop budget root c lowerText i r = Done r'
      ∧ length r' = length r
      ∧ (∀ k, covered (examined budget root lowerText i) k → r' !! k = Some c)
      ∧ (∀ k, ¬ covered (examined budget root lowerText i) k → r' !! k = r !! k)
      ∧ (∀ k, r !! k = Some c → r' !! k = Some c).
Proof.
  revert i r. induction budget as [|budget IH]; intros i r Hlen Hb; simpl;
    destruct (decide (i < length lowerText)) as [Hi|Hi]; try lia.
  - exists r. repeat split; try done.
    intros k (sp & Hin & _). by apply elem_of_nil in Hin.
  - destruct (walk root (drop i lowerText) i i None 0) as [[wordEnd|] wordLength] eqn:Hw.
    + apply trie_walk_found in Hw as (Hl & Hend & _ & _).
      rewrite length_drop in Hl.
      rewrite fill_Done by lia. simpl.
      destruct (IH (S wordEnd) (fill_guarded c i wordLength r))
        as (r' & Hrun & Hlen' & Hin & Hout & Hkeep).
      { by rewrite length_fill_guarded. }
      { lia. }
      exists r'. split; [done|]. split; [by rewrite Hlen', length_fill_guarded|].
      split; [|split].
      * intros k (sp & Hel & Hk). apply elem_of_cons in Hel as [->|Hel].
        -- unfold in_span in Hk. simpl in Hk. apply Hkeep.
           rewrite lookup_fill_guarded. rewrite decide_True; [done | lia].
        -- apply Hin. by exists sp.
      * intros k Hk. rewrite Hout.
        -- rewrite lookup_fill_guarded. rewrite decide_False; [done|].
           intros [Hr _]. apply Hk. exists (i, wordLength). split; [by left | done].
        -- intros (sp & Hel & Hsp). apply Hk. exists sp. split; [by right | done].
      * intros k Hk. apply Hkeep. rewrite lookup_fill_guarded. by case_decide.
    + destruct (IH (S i) r Hlen ltac:(lia)) as (r' & Hrun & Hlen' & Hin & Hout & Hkeep).
      exists r'. split; [done|]. split; [done|]. split; [|split]; [| |done].
      * intros k (sp & Hel & Hk). apply elem_of_cons in Hel as [->|Hel].
        -- unfold in_span in Hk. simpl in Hk. lia.
        -- apply Hin. by exists sp.
      * intros k Hk. apply Hout.
        intros (sp & Hel & Hsp). apply Hk. exists sp. split; [by right | done].
  - exists r. repeat split; try done.
    intros k (sp & Hin & _). by apply elem_of_nil in Hin.
Qed.

(** A text in which no start position reaches a word is returned as it is. *)
Lemma trie_censor_loop_clean budget i r :
  any_start root (drop i lowerText) = false → length lowerText - i ≤ budget →
  censor_loop budget root c lowerText i r = Done r.
Proof.
  revert i. induction budget as [|budget IH]; intros i Hclean Hb; simpl;
    destruct (decide (i < length lowerText)) as [Hi|Hi]; try done; try lia.
  destruct (lookup_lt_is_Some_2 lowerText i Hi) as [x Hx].
  rewrite (drop_S _ _ _ Hx) in Hclean |- *.
  rewrite trie_any_start_cons in Hclean.
  destruct (reaches_word root (x :: drop (S i) lowerText)) eqn:Hreach; [done|].
  rewrite (trie_walk_clean _ _ _ _ _ _ Hreach). apply IH; [done | lia].
Qed.

Lemma trie_examined_ge budget i j l :
  (j, l) ∈ examined budget root lowerText i → i ≤ j.
Proof.
  revert i. induction budget as [|budget IH]; intros i; simpl;
    destruct (decide (i < length lowerText)) as [Hi|Hi];
    try (intros Hin; by apply elem_of_nil in Hin).
  destruct (walk root (drop i lowerText) i i None 0) as [[wordEnd|] wordLength] eqn:Hw.
  - apply trie_walk_found in Hw as (Hl & Hend & _).
    intros [[= -> ->]|Hin]%elem_of_cons; [done|]. apply IH in Hin. lia.
  - intros [[= -> ->]|Hin]%elem_of_cons; [done|]. apply IH in Hin. lia.
Qed.

(** A start position that is examined after [a] lies beyond the span
    matched at [a]. *)
Lemma trie_examined_skip budget i a l j l' :
  (a, l) ∈ examined budget root lowerText i →
  (j, l') ∈ examined budget root lowerText i →
  a < j → a + l ≤ j.
Proof.
  revert i. induction budget as [|budget IH]; intros i; simpl;
    destruct (decide (i < length lowerText)) as [Hi|Hi];
    try (intros Hin; by apply elem_of_nil in Hin).
  destruct (walk root (drop i lowerText) i i None 0) as [[wordEnd|] wordLength] eqn:Hw.
  - apply trie_walk_found in Hw as (Hl & Hend & _).
    intros [[= -> ->]|Ha]%elem_of_cons [[= -> ->]|Hj]%elem_of_cons Haj.
    + lia.
    + apply trie_examined_ge in Hj. lia.
    + apply trie_examined_ge in Ha. lia.
    + by eapply IH.
  - intros [[= -> ->]|Ha]%elem_of_cons [[= -> ->]|Hj]%elem_of_cons Haj.
    + lia.
    + apply trie_examined_ge in Hj. lia.
    + apply trie_examined_ge in Ha. lia.
    + by eapply IH.
Qed.

(** The length recorded at an examined start is that of the longest word
    of the trie that begins there, [0] when there is none. *)
Lemma trie_examined_longest budget i a l :
  (a, l) ∈ examined budget root lowerText i →
  a + l ≤ length lowerText ∧
  (0 < l → spells root (take l (drop a lowerText)) = true) ∧
  (∀ m, l < m ≤ length lowerText - a →
        spells root (take m (drop a lowerText)) = false).
Proof.
  revert i. induction budget as [|budget IH]; intros i; simpl;
    destruct (decide (i < length lowerText)) as [Hi|Hi];
    try (intros Hin; by apply elem_of_nil in Hin).
  destruct (walk root (drop i lowerText) i i None 0) as [[wordEnd|] wordLength] eqn:Hw.
  - apply trie_walk_found in Hw as (Hl & Hend & Hs & Hmax).
    rewrite length_drop in Hl, Hmax.
    intros [[= -> ->]|Hin]%elem_of_cons; [|by eapply IH].
    split; [lia|]. split; [done|]. done.
  - apply trie_walk_none in Hw as (-> & Hno). rewrite length_drop in Hno.
    intros [[= -> ->]|Hin]%elem_of_cons; [|by eapply IH].
    split; [lia|]. split; [lia|]. done.
Qed.

(** The loop examines the start it is entered at. *)
Lemma trie_examined_first budget i :
  i < length lowerText →
  ∃ l, (i, l) ∈ examined (S budget) root lowerText i.
Proof.
  intros Hi. simpl. rewrite decide_True by done.
  destruct (walk root (drop i lowerText) i i None 0) as [[wordEnd|] wordLength].
  - exists wordLength. by left.
  - exists 0. by left.
Qed.

End trie_scan.

Lemma trie_any_start_spells root rest :
  TrieFilter.any_start root rest = true ↔
  ∃ p n, 0 < n ∧ p + n ≤ length rest ∧
         TrieFilter.spells root (take n (drop p rest)) = true.
Proof.
  induction rest as [|x rest IH].
  - simpl. split; [done | intros (p & n & ? & ? & _); lia].
  - rewrite trie_any_start_cons.
    destruct (TrieFilter.reaches_word root (x :: rest)) eqn:Hreach.
    + split; [intros _ | done].
      apply trie_reaches_word_spells in Hreach as (n & Hn & Hs).
      exists 0, n. rewrite drop_0. split; [lia|]. split; [lia | done].
    + rewrite IH. split.
      * intros (p & n & Hn & Hp & Hs). exists (S p), n. simpl.
        split; [done|]. split; [lia | done].
      * intros ([|p] & n & Hn & Hp & Hs).
        -- rewrite drop_0 in Hs.
           assert (TrieFilter.reaches_word root (x :: rest) = true) as Hr.
           { apply trie_reaches_word_spells. exists n. split; [lia | done]. }
           congruence.
        -- exists p, n. simpl in Hp, Hs. split; [done|]. split; [lia | done].
Qed.

(* ================================================================== *)
(** * The regular expressions of [MiniRegex] *)
(* ================================================================== *)

Section mini_regex.
Import MiniRegex.

Lemma mini_match_plus_range a k s n :
  (∀ s' m, k s' = Some m → m ≤ length s') →
  match_plus a k s = Some n → 0 < n ≤ length s.
Proof.
  intros Hk. revert n. induction s as [|x s IH]; intros n; simpl; [done|].
  destruct (atom_matches a x); [|done].
  destruct (match_plus a k s) as [m|] eqn:Hm.
  - intros [= <-]. specialize (IH m eq_refl). lia.
  - destruct (k s) as [m|] eqn:Hks; simpl; [|done].
    intros [= <-]. apply Hk in Hks. lia.
Qed.

Lemma mini_match_here_range ps s n : match_here ps s = Some n → n ≤ length s.
Proof.
  revert s n. induction ps as [|[a|a] ps IH]; intros s n; simpl.
  - intros [= <-]. lia.
  - destruct s as [|x s]; [done|]. destruct (atom_matches a x); [|done].
    destruct (match_here ps s) as [m|] eqn:Hm; simpl; [|done].
    intros [= <-]. apply IH in Hm. simpl. lia.
  - intros Hp. apply mini_match_plus_range in Hp; [lia|]. apply IH.
Qed.

Lemma mini_match_here_pos ps s n : ps ≠ [] → match_here ps s = Some n → 0 < n.
Proof.
  destruct ps as [|[a|a] ps]; [done| |]; intros _; simpl.
  - destruct s as [|x s]; [done|]. destruct (atom_matches a x); [|done].
    destruct (match_here ps s); simpl; [|done]. intros [= <-]. lia.
  - intros Hp. apply mini_match_plus_range in Hp; [lia|].
    apply mini_match_here_range.
Qed.

Lemma mini_search_spec ps s position p n :
  search ps s position = Some (p, n) →
  position ≤ p ∧ p - position + n ≤ length s ∧ (ps ≠ [] → 0 < n).
Proof.
  revert position. induction s as [|x s IH]; intros position; simpl.
  - destruct (match_here ps []) as [m|] eqn:Hm; [|done].
    intros [= <- <-]. pose proof (mini_match_here_range _ _ _ Hm).
    split; [lia|]. split; [simpl in *; lia|].
    intros Hne. by eapply mini_match_here_pos.
  - destruct (match_here ps (x :: s)) as [m|] eqn:Hm.
    + intros [= <- <-]. pose proof (mini_match_here_range _ _ _ Hm).
      split; [lia|]. split; [simpl in *; lia|].
      intros Hne. by eapply mini_match_here_pos.
    + intros Hs. apply IH in Hs as (? & ? & ?). split; [lia|]. split; [lia | done].
Qed.

Lemma mini_search_in_range : @search_in_range std_regex.
Proof.
  intros r s p n Hs. simpl in Hs. apply mini_search_spec in Hs. lia.
Qed.

Lemma mini_never_empty (r : list piece) : r ≠ [] → @never_empty std_regex r.
Proof.
  intros Hne s p n Hs. simpl in Hs. apply mini_search_spec in Hs as (_ & _ & Hn).
  by apply Hn.
Qed.

Lemma mini_default_patterns c :
  Forall (@never_empty std_regex) (RegexFilter.profanityPatterns (RegexFilter.new c)).
Proof.
  assert (Forall (λ r : list piece, r ≠ [])
            (RegexFilter.profanityPatterns (RegexFilter.new c))) as Hne.
  { vm_compute. repeat constructor; done. }
  eapply Forall_impl; [exact Hne|]. intros r. apply mini_never_empty.
Qed.

End mini_regex.

(* ================================================================== *)
(** * The filters: [censor] and [containsProfanity] *)
(* ================================================================== *)

Lemma simple_censor_spec fuel (f : SimpleReplacementFilter.t) text :
  Forall (λ word, word ≠ []) (SimpleReplacementFilter.profanityList f) →
  length text ≤ fuel →
  ∃ r, SimpleReplacementFilter.censor fuel f text = Done r
     ∧ length r = length text
     ∧ ∀ k, (SimpleReplacementFilter.masked f text k →
             r !! k = Some (SimpleReplacementFilter.replacementChar f))
          ∧ (¬ SimpleReplacementFilter.masked f text k → r !! k = text !! k).
Proof.
  intros Hws Hfuel. unfold SimpleReplacementFilter.censor.
  destruct (simple_scan_words_spec (SimpleReplacementFilter.replacementChar f)
              (toLower text) fuel (SimpleReplacementFilter.profanityList f) text Hws)
    as (r & Hrun & Hlen & Hin & Hout & _).
  { by rewrite length_toLower. }
  { by rewrite length_toLower. }
  exists r. split; [done|]. split; [done|]. intros k. split.
  - intros (word & p & Hel & Hh & Hk). by eapply Hin.
  - intros Hk. apply Hout. intros word q Hel Hh Hr. apply Hk. by exists word, q.
Qed.

Lemma simple_censor_clean fuel (f : SimpleReplacementFilter.t) text :
  SimpleReplacementFilter.containsProfanity f text = false →
  SimpleReplacementFilter.censor fuel f text = Done text.
Proof. apply simple_scan_words_clean. Qed.

Lemma regex_censor_spec `{StdRegex} fuel (f : RegexFilter.t) text :
  search_in_range → Forall never_empty (RegexFilter.profanityPatterns f) →
  length text ≤ fuel →
  ∃ r, RegexFilter.censor fuel f text = Done r
     ∧ length r = length text
     ∧ ∀ k, (RegexFilter.masked f text k → r !! k = Some (RegexFilter.replacementChar f))
          ∧ (¬ RegexFilter.masked f text k → r !! k = text !! k).
Proof.
  intros Hrange Hps Hfuel. unfold RegexFilter.censor.
  destruct (regex_scan_patterns_spec (RegexFilter.replacementChar f)
              (toLower text) fuel (RegexFilter.profanityPatterns f) text Hrange Hps)
    as (r & Hrun & Hlen & Hin & Hout & _).
  { by rewrite length_toLower. }
  { by rewrite length_toLower. }
  exists r. split; [done|]. split; [done|]. intros k. split.
  - intros (pattern & sp & Hel & Hs & Hk). by eapply Hin.
  - intros Hk. apply Hout. intros pattern sp Hel Hs Hr. apply Hk. by exists pattern, sp.
Qed.

Lemma regex_censor_clean `{StdRegex} fuel (f : RegexFilter.t) text :
  RegexFilter.containsProfanity f text = false →
  RegexFilter.censor fuel f text = Done text.
Proof. apply regex_scan_patterns_clean. Qed.

Lemma trie_censor_spec (f : TrieFilter.t) text :
  ∃ r, TrieFilter.censor f text = Done r
     ∧ length r = length text
     ∧ ∀ k, (covered (TrieFilter.examined (length text) (TrieFilter.root f)
                        (toLower text) 0) k →
             r !! k = Some (TrieFilter.replacementChar f))
          ∧ (¬ covered (TrieFilter.examined (length text) (TrieFilter.root f)
                          (toLower text) 0) k → r !! k = text !! k).
Proof.
  unfold TrieFilter.censor.
  destruct (trie_censor_loop_spec (TrieFilter.root f) (TrieFilter.replacementChar f)
              (toLower text) (length text) 0 text)
    as (r & Hrun & Hlen & Hin & Hout & _).
  { by rewrite length_toLower. }
  { rewrite length_toLower. lia. }
  exists r. split; [done|]. split; [done|]. intros k. split; [apply Hin | apply Hout].
Qed.

Lemma trie_censor_clean (f : TrieFilter.t) text :
  TrieFilter.containsProfanity f text = false →
  TrieFilter.censor f text = Done text.
Proof.
  intros Hclean. apply trie_censor_loop_clean.
  - by rewrite drop_0.
  - rewrite length_toLower. lia.
Qed.

Lemma hybrid_censor_total `{StdRegex} fuel (h : HybridFilter.t) text :
  search_in_range →
  Forall (λ word, word ≠ [])
    (SimpleReplacementFilter.profanityList (HybridFilter.simpleFilter h)) →
  Forall never_empty (RegexFilter.profanityPatterns (HybridFilter.regexFilter h)) →
  length text ≤ fuel →
  ∃ r, HybridFilter.censor fuel h text = Done r ∧ length r = length text.
Proof.
  intros Hrange Hws Hps Hfuel. unfold HybridFilter.censor.
  assert (∃ r1, (if HybridFilter.useSimpleFilter h
                 then SimpleReplacementFilter.censor fuel (HybridFilter.simpleFilter h) text
                 else Done text) = Done r1 ∧ length r1 = length text)
    as (r1 & -> & Hlen1).
  { destruct (HybridFilter.useSimpleFilter h); [|by exists text].
    destruct (simple_censor_spec fuel _ text Hws Hfuel) as (r & ? & ? & _). by exists r. }
  simpl.
  assert (∃ r2, (if HybridFilter.useRegexFilter h
                 then RegexFilter.censor fuel (HybridFilter.regexFilter h) r1
                 else Done r1) = Done r2 ∧ length r2 = length text)
    as (r2 & -> & Hlen2).
  { destruct (HybridFilter.useRegexFilter h); [|by exists r1].
    destruct (regex_censor_spec fuel _ r1 Hrange Hps ltac:(lia)) as (r & ? & ? & _).
    exists r. split; [done | congruence]. }
  simpl.
  destruct (HybridFilter.useTrieFilter h); simpl; [|by exists r2].
  destruct (trie_censor_spec (HybridFilter.trieFilter h) r2) as (r & -> & ? & _).
  simpl. exists r. split; [done | congruence].
Qed.

Lemma hybrid_censor_clean `{StdRegex} fuel (h : HybridFilter.t) text :
  HybridFilter.containsProfanity h text = false →
  HybridFilter.censor fuel h text = Done text.
Proof.
  unfold HybridFilter.containsProfanity, HybridFilter.censor. intros Hclean.
  destruct (HybridFilter.useSimpleFilter h); simpl in *.
  - destruct (SimpleReplacementFilter.containsProfanity _ text) eqn:Hs; [done|].
    rewrite (simple_censor_clean _ _ _ Hs). simpl.
    destruct (HybridFilter.useRegexFilter h); simpl in *.
    + destruct (RegexFilter.containsProfanity _ text) eqn:Hr; [done|].
      rewrite (regex_censor_clean _ _ _ Hr). simpl.
      destruct (HybridFilter.useTrieFilter h); simpl in *; [|done].
      destruct (TrieFilter.containsProfanity _ text) eqn:Ht; [done|].
      by rewrite (trie_censor_clean _ _ Ht).
    + destruct (HybridFilter.useTrieFilter h); simpl in *; [|done].
      destruct (TrieFilter.containsProfanity _ text) eqn:Ht; [done|].
      by rewrite (trie_censor_clean _ _ Ht).
  - destruct (HybridFilter.useRegexFilter h); simpl in *.
    + destruct (RegexFilter.containsProfanity _ text) eqn:Hr; [done|].
      rewrite (regex_censor_clean _ _ _ Hr). simpl.
      destruct (HybridFilter.useTrieFilter h); simpl in *; [|done].
      destruct (TrieFilter.containsProfanity _ text) eqn:Ht; [done|].
      by rewrite (trie_censor_clean _ _ Ht).
    + destruct (HybridFilter.useTrieFilter h); simpl in *; [|done].
      destruct (TrieFilter.containsProfanity _ text) eqn:Ht; [done|].
      by rewrite (trie_censor_clean _ _ Ht).
Qed.

(* ================================================================== *)
(** * No write is out of range *)
(* ================================================================== *)

Lemma returns_length_bind n (o : outcome str) (k : str → outcome str) :
  returns_length n o → (∀ r, length r = n → returns_length n (k r)) →
  returns_length n (o ≫= k).
Proof. destruct o as [r| |]; simpl; auto. Qed.

Lemma simple_scan_word_safe fuel c lowerText word pos r :
  length r = length lowerText →
  returns_length (length lowerText)
    (SimpleReplacementFilter.scan_word fuel c lowerText word pos r).
Proof.
  revert pos r. induction fuel as [|fuel IH]; intros pos r Hlen; simpl;
    destruct (find lowerText word pos) as [p|] eqn:Hf; try done.
  apply find_Some in Hf as (_ & Hend & _).
  rewrite fill_Done by lia. simpl. apply IH. by rewrite length_fill_guarded.
Qed.

Lemma simple_censor_safe fuel (f : SimpleReplacementFilter.t) text :
  returns_length (length text) (SimpleReplacementFilter.censor fuel f text).
Proof.
  unfold SimpleReplacementFilter.censor. rewrite <- (length_toLower text) at 1.
  assert (length text = length (toLower text)) as Hlen by (by rewrite length_toLower).
  revert Hlen. generalize (toLower text) as lowerText. generalize text as r.
  induction (SimpleReplacementFilter.profanityList f) as [|word words IH];
    intros r lowerText Hlen; simpl; [done|].
  apply returns_length_bind; [by apply simple_scan_word_safe|].
  intros r1 Hr1. by apply IH.
Qed.

Lemma regex_scan_pattern_safe `{StdRegex} fuel c lowerText pattern searchStart r :
  returns_length (length r)
    (RegexFilter.scan_pattern fuel c lowerText pattern searchStart r).
Proof.
  revert searchStart r. induction fuel as [|fuel IH]; intros start r; simpl;
    destruct (regex_search pattern (drop start lowerText)) as [[p n]|]; try done.
  rewrite <- (length_fill_guarded c (p + start) n r). apply IH.
Qed.

Lemma regex_censor_safe `{StdRegex} fuel (f : RegexFilter.t) text :
  returns_length (length text) (RegexFilter.censor fuel f text).
Proof.
  unfold RegexFilter.censor. generalize (toLower text) as lowerText.
  generalize (eq_refl (length text)). generalize text at 2 4 as r.
  induction (RegexFilter.profanityPatterns f) as [|pattern patterns IH];
    intros r Hlen lowerText; simpl; [done|].
  apply returns_length_bind.
  - rewrite Hlen. apply regex_scan_pattern_safe.
  - intros r1 Hr1. by apply IH.
Qed.

Lemma trie_censor_safe (f : TrieFilter.t) text :
  returns_length (length text) (TrieFilter.censor f text).
Proof. by destruct (trie_censor_spec f text) as (r & -> & Hlen & _). Qed.

Lemma hybrid_censor_safe `{StdRegex} fuel (h : HybridFilter.t) text :
  returns_length (length text) (HybridFilter.censor fuel h text).
Proof.
  unfold HybridFilter.censor.
  apply returns_length_bind.
  { destruct (HybridFilter.useSimpleFilter h); [apply simple_censor_safe | done]. }
  intros r1 Hr1. apply returns_length_bind.
  { destruct (HybridFilter.useRegexFilter h); [|done].
    rewrite <- Hr1. apply regex_censor_safe. }
  intros r2 Hr2. apply returns_length_bind; [|done].
  destruct (HybridFilter.useTrieFilter h); [|done].
  rewrite <- Hr2. apply trie_censor_safe.
Qed.

(* ================================================================== *)
(** * Length preservation (C1) *)
(* ================================================================== *)

(** C1, as stated, fails: once the empty word is in the list of the
    literal-set filter ([addProfanity("")]), [censor] does not return on any
    text, because its [while] loop finds the empty word at the same position
    again and again. *)
Lemma C1_counterexample_empty_word :
  let f := SimpleReplacementFilter.addProfanity (SimpleReplacementFilter.new "*") [] in
  ¬ ∃ fuel r, SimpleReplacementFilter.censor fuel f (lit "a") = Done r.
Proof.
  intros f (fuel & r & Hr).
  assert (SimpleReplacementFilter.profanityList f
          = [] :: SimpleReplacementFilter.profanityList (SimpleReplacementFilter.new "*"))
    as Hl by reflexivity.
  unfold SimpleReplacementFilter.censor in Hr. rewrite Hl in Hr.
  cbn [SimpleReplacementFilter.scan_words] in Hr.
  rewrite simple_scan_empty_word in Hr; [done | simpl; lia].
Qed.

(** C1 (amended): for every strategy and every input string [text],
    [censor(text)] never writes outside the string and, whenever it
    returns, returns a string of exactly the same length as [text]; it does
    return provided no word of the literal-set list is empty and no pattern
    of the pattern set matches the empty string (the trie strategy needs no
    proviso).  [fuel] is the iteration budget; any budget of at least the
    length of the text is enough for [censor] to return. *)
Theorem C1_censor_preserves_length `{StdRegex} (text : str) (fuel : nat) :
  ((∀ f : SimpleReplacementFilter.t, returns_length (length text) (censor fuel f text))
   ∧ (∀ f : RegexFilter.t, returns_length (length text) (censor fuel f text))
   ∧ (∀ f : TrieFilter.t, returns_length (length text) (censor fuel f text))
   ∧ (∀ f : HybridFilter.t, returns_length (length text) (censor fuel f text)))
  ∧ (search_in_range → length text ≤ fuel →
     (∀ f : SimpleReplacementFilter.t,
        Forall (λ word, word ≠ []) (SimpleReplacementFilter.profanityList f) →
        ∃ r, censor fuel f text = Done r ∧ length r = length text)
     ∧ (∀ f : RegexFilter.t,
        Forall never_empty (RegexFilter.profanityPatterns f) →
        ∃ r, censor fuel f text = Done r ∧ length r = length text)
     ∧ (∀ f : TrieFilter.t,
        ∃ r, censor fuel f text = Done r ∧ length r = length text)
     ∧ (∀ f : HybridFilter.t,
        Forall (λ word, word ≠ [])
          (SimpleReplacementFilter.profanityList (HybridFilter.simpleFilter f)) →
        Forall never_empty (RegexFilter.profanityPatterns (HybridFilter.regexFilter f)) →
        ∃ r, censor fuel f text = Done r ∧ length r = length text)).
Proof.
  split.
  - split; [|split; [|split]]; intros f.
    + apply simple_censor_safe.
    + apply regex_censor_safe.
    + apply trie_censor_safe.
    + apply hybrid_censor_safe.
  - intros Hrange Hfuel. split; [|split; [|split]].
    + intros f Hws.
      destruct (simple_censor_spec fuel f text Hws Hfuel) as (r & ? & ? & _).
      by exists r.
    + intros f Hps.
      destruct (regex_censor_spec fuel f text Hrange Hps Hfuel) as (r & ? & ? & _).
      by exists r.
    + intros f. destruct (trie_censor_spec f text) as (r & ? & ? & _). by exists r.
    + intros f Hws Hps. by apply hybrid_censor_total.
Qed.

Lemma simple_default_words c :
  Forall (λ word, word ≠ [])
    (SimpleReplacementFilter.profanityList (SimpleReplacementFilter.new c)).
Proof. vm_compute. repeat constructor; done. Qed.

Lemma C1_censor_preserves_length_witness :
  let text := lit "What the fuck are you doing?" in
  (∃ r, censor 28 (SimpleReplacementFilter.new "*") text = Done r ∧ length r = 28)
  ∧ (∃ r, censor 28 (RegexFilter.new "*") text = Done r ∧ length r = 28)
  ∧ (∃ r, censor 28 (TrieFilter.new "*") text = Done r ∧ length r = 28)
  ∧ (∃ r, censor 28 (HybridFilter.new "*") text = Done r ∧ length r = 28).
Proof.
  intros text.
  destruct (proj2 (C1_censor_preserves_length (H:=MiniRegex.std_regex) text 28)
              mini_search_in_range ltac:(vm_compute; lia))
    as (Hsimple & Hregex & Htrie & Hhybrid).
  split; [|split; [|split]].
  - apply Hsimple, simple_default_words.
  - apply Hregex, mini_default_patterns.
  - apply Htrie.
  - apply Hhybrid; [apply simple_default_words | apply mini_default_patterns].
Defined.

(* ================================================================== *)
(** * Termination of the literal-set [censor] (C10) *)
(* ================================================================== *)

(** C10: when every word of the set is non-empty, the literal-set [censor]
    returns on every input.  Each search that succeeds moves the search
    position forward by the positive length of the word, within the text;
    the scan over each word finishes within [length text] runs of the loop
    body, from any search position; and [censor] returns the same string
    for every iteration budget of at least [length text]. *)
Theorem C10_simple_censor_terminates (f : SimpleReplacementFilter.t) (text : str) :
  Forall (λ word, word ≠ []) (SimpleReplacementFilter.profanityList f) →
  (∀ word pos p, word ∈ SimpleReplacementFilter.profanityList f →
     find (toLower text) word pos = Some p →
     pos < p + length word ≤ length text)
  ∧ (∀ word pos result, word ∈ SimpleReplacementFilter.profanityList f →
     length result = length text →
     ∃ result', SimpleReplacementFilter.scan_word (length text)
                  (SimpleReplacementFilter.replacementChar f) (toLower text)
                  word pos result = Done result')
  ∧ ∃ r, ∀ fuel, length text ≤ fuel →
         SimpleReplacementFilter.censor fuel f text = Done r.
Proof.
  intros Hws. split; [|split].
  - intros word pos p Hel Hf. apply find_Some in Hf as (? & ? & _).
    rewrite length_toLower in *.
    assert (word ≠ []) as Hw by (by eapply Forall_forall in Hws).
    destruct word; [done|]. simpl in *. lia.
  - intros word pos result Hel Hlen.
    assert (word ≠ []) as Hw by (by eapply Forall_forall in Hws).
    destruct (simple_scan_word_spec (SimpleReplacementFilter.replacementChar f)
                (toLower text) (length text) word pos result Hw)
      as (r' & Hrun & _).
    + by rewrite length_toLower.
    + rewrite length_toLower. lia.
    + by exists r'.
  - destruct (simple_censor_spec (length text) f text Hws (Nat.le_refl _))
      as (r & Hrun & _).
    exists r. intros fuel Hfuel. unfold SimpleReplacementFilter.censor in *.
    by eapply simple_scan_words_fuel.
Qed.

Lemma C10_simple_censor_terminates_witness :
  let f := SimpleReplacementFilter.new "*" in
  ∃ r, ∀ fuel, length (lit "a shitty ass") ≤ fuel →
       SimpleReplacementFilter.censor fuel f (lit "a shitty ass") = Done r.
Proof.
  intros f.
  exact (proj2 (proj2 (C10_simple_censor_terminates f (lit "a shitty ass")
                         (simple_default_words "*")))).
Defined.

(* ================================================================== *)
(** * What the literal-set [censor] masks (C3) *)
(* ================================================================== *)

Lemma simple_censor_fuel fuel fuel' (f : SimpleReplacementFilter.t) text r :
  SimpleReplacementFilter.censor fuel f text = Done r → fuel ≤ fuel' →
  SimpleReplacementFilter.censor fuel' f text = Done r.
Proof. apply simple_scan_words_fuel. Qed.

(** C3, as stated, fails: with the word "aa" in the set, "aa" occurs in
    "aaa" at the positions 0 and 1, but [censor("aaa")] is "**a": after the
    match at 0 the search resumes at position 2, behind the match, and the
    occurrence at 1 is not found. *)
Lemma C3_counterexample_overlap :
  let f := SimpleReplacementFilter.addProfanity (SimpleReplacementFilter.new "*") (lit "aa") in
  lit "aa" ∈ SimpleReplacementFilter.profanityList f
  ∧ SimpleReplacementFilter.occurs_at (lit "aa") (toLower (lit "aaa")) 0
  ∧ SimpleReplacementFilter.occurs_at (lit "aa") (toLower (lit "aaa")) 1
  ∧ SimpleReplacementFilter.censor 3 f (lit "aaa") = Done (lit "**a")
  ∧ ∀ fuel, SimpleReplacementFilter.censor fuel f (lit "aaa") ≠ Done (lit "***").
Proof.
  intros f.
  assert (SimpleReplacementFilter.censor 1 f (lit "aaa") = Done (lit "**a")) as H1
    by (vm_compute; reflexivity).
  split; [|split; [|split; [|split]]].
  - vm_compute. left.
  - vm_compute. split; [lia | done].
  - vm_compute. split; [lia | done].
  - vm_compute. reflexivity.
  - intros [|fuel] Hr.
    + vm_compute in Hr. discriminate.
    + rewrite (simple_censor_fuel 1 (S fuel) f _ _ H1 ltac:(lia)) in Hr.
      vm_compute in Hr. discriminate.
Qed.

(** C3 (amended): for the literal-set strategy with non-empty words,
    [censor] masks, for every banned word, the occurrences that a
    left-to-right search finds when it resumes behind the end of each match
    (so an occurrence that overlaps an earlier match of the same word is
    skipped); the words are searched independently of each other in the
    case-folded input, and the output is the input with the union of these
    ranges masked and every other character unchanged. *)
Theorem C3_simple_censor_masks_hits
    (f : SimpleReplacementFilter.t) (text : str) (fuel : nat) :
  Forall (λ word, word ≠ []) (SimpleReplacementFilter.profanityList f) →
  length text ≤ fuel →
  (∀ word pos q, SimpleReplacementFilter.hit (toLower text) word pos q →
     pos ≤ q ∧ SimpleReplacementFilter.occurs_at word (toLower text) q)
  ∧ (∀ word pos p q, find (toLower text) word pos = Some p →
       SimpleReplacementFilter.hit (toLower text) word (p + length word) q →
       p + length word ≤ q)
  ∧ ∃ r, SimpleReplacementFilter.censor fuel f text = Done r
       ∧ length r = length text
       ∧ ∀ k, (SimpleReplacementFilter.masked f text k →
               r !! k = Some (SimpleReplacementFilter.replacementChar f))
            ∧ (¬ SimpleReplacementFilter.masked f text k → r !! k = text !! k).
Proof.
  intros Hws Hfuel. split; [|split].
  - intros word pos q. apply simple_hit_occurs.
  - intros word pos p q _ Hh. by apply simple_hit_occurs in Hh as [? _].
  - by apply simple_censor_spec.
Qed.

Lemma C3_simple_censor_masks_hits_witness :
  let f := SimpleReplacementFilter.addProfanity (SimpleReplacementFilter.new "*") (lit "aa") in
  ∃ r, SimpleReplacementFilter.censor 3 f (lit "aaa") = Done r
     ∧ length r = 3
     ∧ ∀ k, (SimpleReplacementFilter.masked f (lit "aaa") k → r !! k = Some "*"%char)
          ∧ (¬ SimpleReplacementFilter.masked f (lit "aaa") k → r !! k = lit "aaa" !! k).
Proof.
  intros f.
  refine (proj2 (proj2 (C3_simple_censor_masks_hits f (lit "aaa") 3 _ _))).
  - vm_compute. repeat constructor; done.
  - vm_compute. lia.
Defined.

(* ================================================================== *)
(** * Detection and masking agree (C5, C8) *)
(* ================================================================== *)

(** C5: for the literal-set and the trie strategies, if [censor(text)]
    differs from [text] then [containsProfanity(text)] is true. *)
Theorem C5_detection_consistency (text r : str) :
  (∀ fuel (f : SimpleReplacementFilter.t),
     SimpleReplacementFilter.censor fuel f text = Done r → r ≠ text →
     SimpleReplacementFilter.containsProfanity f text = true)
  ∧ (∀ f : TrieFilter.t,
     TrieFilter.censor f text = Done r → r ≠ text →
     TrieFilter.containsProfanity f text = true).
Proof.
  split.
  - intros fuel f Hr Hne.
    destruct (SimpleReplacementFilter.containsProfanity f text) eqn:Hc; [done|].
    rewrite (simple_censor_clean fuel f text Hc) in Hr. congruence.
  - intros f Hr Hne.
    destruct (TrieFilter.containsProfanity f text) eqn:Hc; [done|].
    rewrite (trie_censor_clean f text Hc) in Hr. congruence.
Qed.

Lemma C5_detection_consistency_witness :
  SimpleReplacementFilter.containsProfanity (SimpleReplacementFilter.new "*")
    (lit "Damn it") = true
  ∧ TrieFilter.containsProfanity (TrieFilter.new "*") (lit "Damn it") = true.
Proof.
  destruct (C5_detection_consistency (lit "Damn it") (lit "**** it")) as [Hs Ht].
  split.
  - apply (Hs 7); [vm_compute; reflexivity | vm_compute; discriminate].
  - apply Ht; [vm_compute; reflexivity | vm_compute; discriminate].
Defined.

(** C8: for every strategy, if [containsProfanity(censor(text))] is false
    then [censor(censor(text))] returns [censor(text)], whatever the
    iteration budget of the second call. *)
Theorem C8_censor_stable `{StdRegex} (text r : str) (fuel fuel' : nat) :
  (∀ f : SimpleReplacementFilter.t,
     censor fuel f text = Done r → containsProfanity f r = false →
     censor fuel' f r = Done r)
  ∧ (∀ f : RegexFilter.t,
     censor fuel f text = Done r → containsProfanity f r = false →
     censor fuel' f r = Done r)
  ∧ (∀ f : TrieFilter.t,
     censor fuel f text = Done r → containsProfanity f r = false →
     censor fuel' f r = Done r)
  ∧ (∀ f : HybridFilter.t,
     censor fuel f text = Done r → containsProfanity f r = false →
     censor fuel' f r = Done r).
Proof.
  repeat split; intros f _ Hclean.
  - by apply simple_censor_clean.
  - by apply regex_censor_clean.
  - by apply trie_censor_clean.
  - by apply hybrid_censor_clean.
Qed.

Lemma C8_censor_stable_witness :
  let r := lit "You ****, *******!" in
  censor 0 (SimpleReplacementFilter.new "*") r = Done r
  ∧ censor 0 (RegexFilter.new "*") r = Done r
  ∧ censor 0 (TrieFilter.new "*") r = Done r
  ∧ censor 0 (HybridFilter.new "*") r = Done r.
Proof.
  intros r.
  destruct (C8_censor_stable (H:=MiniRegex.std_regex)
              (lit "You fuck, BASTARD!") r 18 0)
    as (Hsimple & Hregex & Htrie & Hhybrid).
  split; [|split; [|split]].
  - apply Hsimple; vm_compute; reflexivity.
  - apply Hregex; vm_compute; reflexivity.
  - apply Htrie; vm_compute; reflexivity.
  - apply Hhybrid; vm_compute; reflexivity.
Defined.

(* ================================================================== *)
(** * The trie strategy: longest match and skip on match (C2, C6) *)
(* ================================================================== *)

Lemma trie_banned_addProfanity (f : TrieFilter.t) word w :
  TrieFilter.banned (TrieFilter.addProfanity f word) w ↔
  w = toLower word ∨ TrieFilter.banned f w.
Proof. unfold TrieFilter.banned. simpl. apply trie_spells_addToTrie. Qed.

(** Every index of the text is an examined start or lies in the span
    matched at one. *)
Lemma trie_examined_complete root lowerText budget i0 k :
  length lowerText - i0 ≤ budget → i0 ≤ k < length lowerText →
  ∃ i l, (i, l) ∈ TrieFilter.examined budget root lowerText i0 ∧ i ≤ k < i + max l 1.
Proof.
  revert i0. induction budget as [|budget IH]; intros i0 Hb Hk; [lia|].
  simpl. rewrite decide_True by lia.
  destruct (TrieFilter.walk root (drop i0 lowerText) i0 i0 None 0)
    as [[wordEnd|] wordLength] eqn:Hw.
  - apply trie_walk_found in Hw as (Hl & Hend & _). rewrite length_drop in Hl.
    destruct (decide (k < i0 + wordLength)) as [Hin|Hout].
    + exists i0, wordLength. split; [by left | lia].
    + destruct (IH (S wordEnd) ltac:(lia) ltac:(lia)) as (i & l & Hel & Hr).
      exists i, l. split; [by right | done].
  - destruct (decide (k = i0)) as [->|Hne].
    + exists i0, 0. split; [by left | simpl; lia].
    + destruct (IH (S i0) ltac:(lia) ltac:(lia)) as (i & l & Hel & Hr).
      exists i, l. split; [by right | done].
Qed.



(** C6: when the trie [censor] finds a match of length [wordLength] at the
    start [i], it masks exactly the [wordLength] characters from [i] on and
    resumes the scan at [i + wordLength], the first position behind the
    match; when it finds none it resumes at [i + 1].  No start that is
    examined lies strictly inside a span matched earlier in the pass, and
    every index of the text is an examined start or inside a matched span. *)
Theorem C6_trie_skip_on_match (root : TrieNode) (c : ascii) (lowerText : str) :
  (∀ budget i result wordEnd wordLength,
     i < length lowerText → length result = length lowerText →
     TrieFilter.walk root (drop i lowerText) i i None 0 = (Some wordEnd, wordLength) →
     ∃ result', fill c i wordLength result = Done result'
       ∧ (∀ k, result' !! k =
               if decide (i ≤ k < i + wordLength) then Some c else result !! k)
       ∧ 0 < wordLength
       ∧ TrieFilter.censor_loop (S budget) root c lowerText i result
         = TrieFilter.censor_loop budget root c lowerText (i + wordLength) result')
  ∧ (∀ budget i result wordLength,
     i < length lowerText →
     TrieFilter.walk root (drop i lowerText) i i None 0 = (None, wordLength) →
     TrieFilter.censor_loop (S budget) root c lowerText i result
     = TrieFilter.censor_loop budget root c lowerText (S i) result)
  ∧ (∀ a l j l',
     (a, l) ∈ TrieFilter.examined (length lowerText) root lowerText 0 →
     (j, l') ∈ TrieFilter.examined (length lowerText) root lowerText 0 →
     ¬ a < j < a + l)
  ∧ (∀ k, k < length lowerText →
     ∃ i l, (i, l) ∈ TrieFilter.examined (length lowerText) root lowerText 0
            ∧ i ≤ k < i + max l 1).
Proof.
  split; [|split; [|split]].
  - intros budget i result wordEnd wordLength Hi Hlen Hw.
    pose proof (trie_walk_found _ _ _ _ _ Hw) as (Hl & Hend & _).
    rewrite length_drop in Hl.
    exists (fill_guarded c i wordLength result).
    split; [apply fill_Done; lia|]. split; [|split; [lia|]].
    + intros k. rewrite lookup_fill_guarded.
      repeat case_decide; try done; lia.
    + simpl. rewrite decide_True by done. rewrite Hw.
      rewrite fill_Done by lia. simpl. by rewrite Hend.
  - intros budget i result wordLength Hi Hw.
    simpl. rewrite decide_True by done. by rewrite Hw.
  - intros a l j l' Ha Hj [Hlt Hin].
    pose proof (trie_examined_skip _ _ _ _ _ _ _ _ Ha Hj Hlt). lia.
  - intros k Hk. apply trie_examined_complete; lia.
Qed.

Lemma C6_trie_skip_on_match_witness :
  let root := TrieFilter.addToTrie (lit "bcd")
                (TrieFilter.addToTrie (lit "ab") TrieFilter.newNode) in
  TrieFilter.examined 4 root (lit "abcd") 0 = [(0, 2); (2, 0); (3, 0)]
  ∧ TrieFilter.censor (TrieFilter.mk root "*") (lit "abcd") = Done (lit "**cd")
  ∧ ∃ result', fill "*" 0 2 (lit "abcd") = Done result'
      ∧ TrieFilter.censor_loop 4 root "*" (lit "abcd") 0 (lit "abcd")
        = TrieFilter.censor_loop 3 root "*" (lit "abcd") (0 + 2) result'.
Proof.
  intros root. split; [vm_compute; reflexivity|]. split; [vm_compute; reflexivity|].
  destruct (proj1 (C6_trie_skip_on_match root "*" (lit "abcd")) 3 0 (lit "abcd") 1 2)
    as (result' & Hfill & _ & _ & Hstep).
  - vm_compute. lia.
  - reflexivity.
  - vm_compute. reflexivity.
  - exists result'. split; [exact Hfill | exact Hstep].
Defined.

(* ================================================================== *)
(** * The trie and the literal set detect the same texts (C9) *)
(* ================================================================== *)

Lemma simple_elem_addProfanity (f : SimpleReplacementFilter.t) word w :
  w ∈ SimpleReplacementFilter.profanityList (SimpleReplacementFilter.addProfanity f word) ↔
  w = toLower word ∨ w ∈ SimpleReplacementFilter.profanityList f.
Proof. simpl. apply elem_of_set_insert. Qed.

Lemma toLower_nil word : toLower word = [] ↔ word = [].
Proof. by destruct word. Qed.

Lemma set_insert_foldl ws s w :
  w ∈ foldl (λ s word, set_insert word s) s ws ↔ w ∈ ws ∨ w ∈ s.
Proof.
  revert s. induction ws as [|x ws IH]; intros s; simpl.
  - rewrite elem_of_nil. tauto.
  - rewrite IH, elem_of_set_insert, elem_of_cons. tauto.
Qed.

Lemma trie_spells_foldl ws node w :
  TrieFilter.spells (foldl (λ node word, TrieFilter.addToTrie word node) node ws) w = true ↔
  w ∈ ws ∨ TrieFilter.spells node w = true.
Proof.
  revert node. induction ws as [|x ws IH]; intros node.
  - simpl. rewrite elem_of_nil. tauto.
  - cbn [foldl]. rewrite IH, trie_spells_addToTrie, elem_of_cons. tauto.
Qed.

(** The two constructors start from the same six words. *)
Lemma new_same_words c c' w :
  w ∈ SimpleReplacementFilter.profanityList (SimpleReplacementFilter.new c) ↔
  TrieFilter.banned (TrieFilter.new c') w.
Proof.
  unfold TrieFilter.banned, TrieFilter.new, SimpleReplacementFilter.new.
  cbn [TrieFilter.root SimpleReplacementFilter.profanityList].
  rewrite trie_spells_foldl, set_insert_foldl.
  rewrite trie_spells_newNode, elem_of_nil.
  split; (intros [Hw|Hw]; [by left | done]).
Qed.

Lemma add_same_words (s : SimpleReplacementFilter.t) (t : TrieFilter.t) word :
  (∀ w, w ∈ SimpleReplacementFilter.profanityList s ↔ TrieFilter.banned t w) →
  ∀ w, w ∈ SimpleReplacementFilter.profanityList (SimpleReplacementFilter.addProfanity s word) ↔
       TrieFilter.banned (TrieFilter.addProfanity t word) w.
Proof.
  intros Hsame w.
  by rewrite simple_elem_addProfanity, trie_banned_addProfanity, Hsame.
Qed.

Lemma add_nonempty (s : SimpleReplacementFilter.t) word :
  word ≠ [] →
  Forall (λ word, word ≠ []) (SimpleReplacementFilter.profanityList s) →
  Forall (λ word, word ≠ [])
    (SimpleReplacementFilter.profanityList (SimpleReplacementFilter.addProfanity s word)).
Proof.
  intros Hw Hne. apply Forall_forall.
  intros w [->|Hel]%simple_elem_addProfanity.
  - by rewrite toLower_nil.
  - by eapply Forall_forall in Hne.
Qed.

Section same_words.
Context (fs : filesystem).

Lemma load_lines_same_words lines (s : SimpleReplacementFilter.t) (t : TrieFilter.t) :
  (∀ w, w ∈ SimpleReplacementFilter.profanityList s ↔ TrieFilter.banned t w) →
  ∀ w, w ∈ SimpleReplacementFilter.profanityList (SimpleReplacementFilter.load_lines s lines) ↔
       TrieFilter.banned (TrieFilter.load_lines t lines) w.
Proof.
  revert s t. induction lines as [|line lines IH]; intros s t Hsame; [done|].
  unfold SimpleReplacementFilter.load_lines, TrieFilter.load_lines. cbn [foldl].
  apply IH. destruct (empty line); [done|]. by apply add_same_words.
Qed.

Lemma load_lines_nonempty lines (s : SimpleReplacementFilter.t) :
  Forall (λ word, word ≠ []) (SimpleReplacementFilter.profanityList s) →
  Forall (λ word, word ≠ [])
    (SimpleReplacementFilter.profanityList (SimpleReplacementFilter.load_lines s lines)).
Proof.
  revert s. induction lines as [|line lines IH]; intros s Hne; [done|].
  unfold SimpleReplacementFilter.load_lines. cbn [foldl]. apply IH.
  destruct line as [|x line]; [done|]. by apply add_nonempty.
Qed.

Lemma run_ops_same_words ops (s : SimpleReplacementFilter.t) (t : TrieFilter.t) :
  (∀ w, w ∈ SimpleReplacementFilter.profanityList s ↔ TrieFilter.banned t w) →
  ∀ w, w ∈ SimpleReplacementFilter.profanityList (run_ops fs ops s) ↔
       TrieFilter.banned (run_ops fs ops t) w.
Proof.
  revert s t. induction ops as [|op ops IH]; intros s t Hsame; [done|].
  unfold run_ops. cbn [foldl]. apply IH. destruct op as [word|filename].
  - by apply add_same_words.
  - unfold run_op, loadFromFile. cbn.
    unfold SimpleReplacementFilter.loadFromFile, TrieFilter.loadFromFile.
    destruct (fs filename) as [lines|]; [|done]. by apply load_lines_same_words.
Qed.

Lemma run_ops_nonempty ops (s : SimpleReplacementFilter.t) :
  (∀ word, AddWord word ∈ ops → word ≠ []) →
  Forall (λ word, word ≠ []) (SimpleReplacementFilter.profanityList s) →
  Forall (λ word, word ≠ []) (SimpleReplacementFilter.profanityList (run_ops fs ops s)).
Proof.
  revert s. induction ops as [|op ops IH]; intros s Hadd Hne; [done|].
  unfold run_ops. cbn [foldl]. apply IH.
  - intros word Hel. apply Hadd. by right.
  - destruct op as [word|filename].
    + apply add_nonempty; [|done]. apply Hadd. by left.
    + unfold run_op, loadFromFile. cbn.
      unfold SimpleReplacementFilter.loadFromFile.
      destruct (fs filename) as [lines|]; [|done]. by apply load_lines_nonempty.
Qed.

End same_words.

(** When the two filters ban the same non-empty words, they detect the same
    texts: those in which a banned word occurs. *)
Lemma trie_contains_iff_simple (s : SimpleReplacementFilter.t) (t : TrieFilter.t) text :
  (∀ w, w ∈ SimpleReplacementFilter.profanityList s ↔ TrieFilter.banned t w) →
  Forall (λ word, word ≠ []) (SimpleReplacementFilter.profanityList s) →
  TrieFilter.containsProfanity t text = true ↔
  ∃ word p, word ∈ SimpleReplacementFilter.profanityList s ∧
            SimpleReplacementFilter.occurs_at word (toLower text) p.
Proof.
  intros Hsame Hne. unfold TrieFilter.containsProfanity.
  rewrite trie_any_start_spells. split.
  - intros (p & n & Hn & Hp & Hs).
    exists (take n (drop p (toLower text))), p. split; [by apply Hsame|].
    split; [lia|]. apply starts_with_take_self. rewrite length_drop. lia.
  - intros (word & p & Hel & Hp & Hst).
    assert (word ≠ []) as Hw by (by eapply Forall_forall in Hne).
    exists p, (length word).
    pose proof (starts_with_length _ _ Hst) as Hlen. rewrite length_drop in Hlen.
    split; [destruct word; [done | simpl; lia]|]. split; [lia|].
    rewrite (starts_with_take _ _ Hst). by apply Hsame.
Qed.

(** C9: after the same calls of [addProfanity] and [loadFromFile], with
    non-empty words, on a literal-set filter and on a trie filter, the two
    [containsProfanity] agree on every text: both are true exactly when a
    banned word occurs in the case-folded text. *)
Theorem C9_trie_equals_literal
    (fs : filesystem) (ops : list load_op) (c c' : ascii) (text : str) :
  (∀ word, AddWord word ∈ ops → word ≠ []) →
  let s := run_ops fs ops (SimpleReplacementFilter.new c) in
  let t := run_ops fs ops (TrieFilter.new c') in
  containsProfanity t text = containsProfanity s text
  ∧ (containsProfanity s text = true ↔
     ∃ word p, word ∈ SimpleReplacementFilter.profanityList s ∧
               SimpleReplacementFilter.occurs_at word (toLower text) p).
Proof.
  intros Hadd s t.
  assert (∀ w, w ∈ SimpleReplacementFilter.profanityList s ↔ TrieFilter.banned t w)
    as Hsame by (apply run_ops_same_words; intros w; apply new_same_words).
  assert (Forall (λ word, word ≠ []) (SimpleReplacementFilter.profanityList s))
    as Hne by (apply run_ops_nonempty; [done | apply simple_default_words]).
  pose proof (trie_contains_iff_simple s t text Hsame Hne) as Ht.
  pose proof (simple_any_found_true (toLower text)
                (SimpleReplacementFilter.profanityList s)) as Hs.
  split; [|exact Hs].
  change (TrieFilter.containsProfanity t text
          = SimpleReplacementFilter.any_found (toLower text)
              (SimpleReplacementFilter.profanityList s)).
  destruct (TrieFilter.containsProfanity t text);
    destruct (SimpleReplacementFilter.any_found _ _); try done.
  - assert (false = true) as Habs by (apply Hs, Ht; done). done.
  - assert (false = true) as Habs by (apply Ht, Hs; done). done.
Qed.

Lemma C9_trie_equals_literal_witness :
  let fs : filesystem := λ filename,
    if decide (filename = lit "words.txt") then Some [lit "Heck"; []; lit "darn it"]
    else None in
  let ops := [AddWord (lit "Gosh"); LoadFile (lit "words.txt"); LoadFile (lit "missing.txt")] in
  containsProfanity (run_ops fs ops (TrieFilter.new "*")) (lit "Oh HECK, no")
  = containsProfanity (run_ops fs ops (SimpleReplacementFilter.new "#")) (lit "Oh HECK, no").
Proof.
  intros fs ops.
  refine (proj1 (C9_trie_equals_literal fs ops "#" "*" (lit "Oh HECK, no") _)).
  intros word Hel. vm_compute in Hel.
  apply elem_of_cons in Hel as [[= ->]|Hel]; [done|].
  apply elem_of_cons in Hel as [[=]|Hel].
  apply elem_of_cons in Hel as [[=]|Hel].
  by apply elem_of_nil in Hel.
Defined.

(* ================================================================== *)
(** * The pattern set searches the original text (C4) *)
(* ================================================================== *)

Lemma regex_censor_fuel `{StdRegex} fuel fuel' (f : RegexFilter.t) text r :
  RegexFilter.censor fuel f text = Done r → fuel ≤ fuel' →
  RegexFilter.censor fuel' f text = Done r.
Proof. apply regex_scan_patterns_fuel. Qed.

Lemma regex_scan_patterns_app `{StdRegex} fuel c lowerText ps p result :
  RegexFilter.scan_patterns fuel c lowerText (ps ++ [p]) result
  = RegexFilter.scan_patterns fuel c lowerText ps result
      ≫= RegexFilter.scan_pattern fuel c lowerText p 0.
Proof.
  revert result. induction ps as [|q ps IH]; intros result; simpl.
  - by destruct (RegexFilter.scan_pattern fuel c lowerText p 0 result).
  - destruct (RegexFilter.scan_pattern fuel c lowerText q 0 result); simpl; [|done..].
    apply IH.
Qed.

(** The spans of one pattern lie in the text, from left to right, each
    behind the start of the search that found it. *)
Lemma regex_span_range `{StdRegex} lowerText pattern searchStart sp :
  search_in_range → searchStart ≤ length lowerText →
  RegexFilter.span_of lowerText pattern searchStart sp →
  searchStart ≤ sp.1 ∧ sp.1 + sp.2 ≤ length lowerText.
Proof.
  intros Hrange Hstart Hs. induction Hs as [start p n Hf | start p n sp Hf _ IH].
  - apply Hrange in Hf. rewrite length_drop in Hf. simpl. lia.
  - apply Hrange in Hf. rewrite length_drop in Hf. lia.
Qed.

(** C4, as stated, fails: with the built-in patterns, "shit" is applied
    before "ass"; in "asshit" the pattern "ass" still matches at 0, because
    it searches the case-folded input text, not the string in which "shit"
    has been masked.  [censor] returns "******"; searching the
    progressively masked string would give "as****". *)
Lemma C4_counterexample_original_text :
  let f := RegexFilter.new (H:=MiniRegex.std_regex) "*" in
  RegexFilter.censor 6 f (lit "asshit") = Done (lit "******")
  ∧ RegexFilter.censor_progressive 6 f (lit "asshit") = Done (lit "as****")
  ∧ ∀ fuel, RegexFilter.censor fuel f (lit "asshit") ≠ Done (lit "as****").
Proof.
  intros f.
  assert (RegexFilter.censor 1 f (lit "asshit") = Done (lit "******")) as H1
    by (vm_compute; reflexivity).
  split; [vm_compute; reflexivity|]. split; [vm_compute; reflexivity|].
  intros [|fuel] Hr.
  - vm_compute in Hr. discriminate.
  - rewrite (regex_censor_fuel 1 (S fuel) f _ _ H1 ltac:(lia)) in Hr.
    vm_compute in Hr. discriminate.
Qed.

Section regex_partial.
Context `{StdRegex} (c : ascii) (lowerText : str).

(** What the loop for one pattern has written when it returns. *)
Lemma regex_scan_pattern_partial fuel pattern searchStart r r' :
  RegexFilter.scan_pattern fuel c lowerText pattern searchStart r = Done r' →
  length r' = length r
  ∧ (∀ k sp, k < length r →
       RegexFilter.span_of lowerText pattern searchStart sp → in_span k sp →
       r' !! k = Some c)
  ∧ (∀ k, (∀ sp, RegexFilter.span_of lowerText pattern searchStart sp →
                 ¬ in_span k sp) → r' !! k = r !! k)
  ∧ (∀ k, r !! k = Some c → r' !! k = Some c).
Proof.
  revert searchStart r. induction fuel as [|fuel IH]; intros start r; simpl;
    destruct (regex_search pattern (drop start lowerText)) as [[p n]|] eqn:Hf;
    try done.
  - intros [= <-]. repeat split; try done.
    intros k sp _ Hs. apply regex_span_inv in Hs as (? & ? & ? & _). congruence.
  - intros Hrun. apply IH in Hrun as (Hlen & Hin & Hout & Hkeep).
    rewrite length_fill_guarded in Hlen, Hin.
    split; [done|]. split; [|split].
    + intros k sp Hk Hs Hsp. apply regex_span_inv in Hs as (p0 & n0 & Hp0 & [->|Hs]).
      * assert (p0 = p ∧ n0 = n) as [-> ->] by (split; congruence).
        unfold in_span in Hsp. simpl in Hsp.
        apply Hkeep. rewrite lookup_fill_guarded. rewrite decide_True; [done | lia].
      * assert (p0 = p ∧ n0 = n) as [-> ->] by (split; congruence). by eapply Hin.
    + intros k Hk. rewrite Hout.
      * rewrite lookup_fill_guarded. rewrite decide_False; [done|].
        intros [Hr _]. eapply Hk; [by apply RegexFilter.span_here | done].
      * intros sp Hs. apply Hk. by eapply RegexFilter.span_later.
    + intros k Hk. apply Hkeep. rewrite lookup_fill_guarded. by case_decide.
  - intros [= <-]. repeat split; try done.
    intros k sp _ Hs. apply regex_span_inv in Hs as (? & ? & ? & _). congruence.
Qed.

Lemma regex_scan_patterns_partial fuel patterns r r' :
  RegexFilter.scan_patterns fuel c lowerText patterns r = Done r' →
  length r' = length r
  ∧ (∀ k pattern sp, k < length r → pattern ∈ patterns →
       RegexFilter.span_of lowerText pattern 0 sp → in_span k sp →
       r' !! k = Some c)
  ∧ (∀ k, (∀ pattern sp, pattern ∈ patterns →
             RegexFilter.span_of lowerText pattern 0 sp → ¬ in_span k sp) →
          r' !! k = r !! k)
  ∧ (∀ k, r !! k = Some c → r' !! k = Some c).
Proof.
  revert r. induction patterns as [|pattern patterns IH]; intros r; simpl.
  - intros [= <-]. repeat split; try done.
    intros k p sp _ Hel. by apply elem_of_nil in Hel.
  - destruct (RegexFilter.scan_pattern fuel c lowerText pattern 0 r)
      as [r1| |] eqn:H1; simpl; [|done|done].
    apply regex_scan_pattern_partial in H1 as (Hlen1 & Hin1 & Hout1 & Hkeep1).
    intros Hrun. apply IH in Hrun as (Hlen & Hin & Hout & Hkeep).
    rewrite Hlen1 in Hlen, Hin.
    split; [done|]. split; [|split].
    + intros k p sp Hk Hel Hs Hsp. apply elem_of_cons in Hel as [->|Hel].
      * apply Hkeep. by eapply Hin1.
      * by eapply Hin.
    + intros k Hk. rewrite Hout.
      * apply Hout1. intros sp Hs. apply (Hk pattern sp); [left | done].
      * intros p sp Hel. apply (Hk p sp). by right.
    + intros k Hk. by apply Hkeep, Hkeep1.
Qed.

End regex_partial.

(** C4 (amended): for the pattern-set strategy, [censor] applies the
    patterns one after the other in registration order; every pattern
    searches the case-folded input text, which is computed once and never
    modified (later patterns do not see the mask characters written for
    earlier patterns), and each of its searches resumes behind the end of
    the previous match.  Whenever [censor] returns, its result is the input
    with every position of the text that lies in one of these match spans
    overwritten with the mask character, and every other character
    unchanged.  [censor] returns when no pattern matches the empty
    string. *)
Theorem C4_regex_censor_original_text `{StdRegex}
    (f : RegexFilter.t) (text : str) (fuel : nat) :
  (∀ word r, compile word = Some r →
     RegexFilter.profanityPatterns (RegexFilter.addProfanity f word)
     = RegexFilter.profanityPatterns f ++ [r]
     ∧ RegexFilter.censor fuel (RegexFilter.addProfanity f word) text
       = RegexFilter.censor fuel f text
           ≫= RegexFilter.scan_pattern fuel (RegexFilter.replacementChar f)
                (toLower text) r 0)
  ∧ (∀ r, RegexFilter.censor fuel f text = Done r →
       length r = length text
       ∧ ∀ k, (k < length text → RegexFilter.masked f text k →
               r !! k = Some (RegexFilter.replacementChar f))
            ∧ (¬ RegexFilter.masked f text k → r !! k = text !! k))
  ∧ (search_in_range →
     (∀ pattern sp, RegexFilter.span_of (toLower text) pattern 0 sp →
        sp.1 + sp.2 ≤ length text)
     ∧ (∀ pattern searchStart position length_ sp,
        searchStart ≤ length text →
        regex_search pattern (drop searchStart (toLower text)) = Some (position, length_) →
        RegexFilter.span_of (toLower text) pattern (searchStart + position + length_) sp →
        position + searchStart + length_ ≤ sp.1)
     ∧ (Forall never_empty (RegexFilter.profanityPatterns f) → length text ≤ fuel →
        ∃ r, RegexFilter.censor fuel f text = Done r)).
Proof.
  split; [|split].
  - intros word r Hc. unfold RegexFilter.addProfanity, RegexFilter.addPattern.
    rewrite Hc. split; [done|]. unfold RegexFilter.censor. simpl.
    apply regex_scan_patterns_app.
  - intros r Hrun. unfold RegexFilter.censor in Hrun.
    apply regex_scan_patterns_partial in Hrun as (Hlen & Hin & Hout & _).
    split; [done|]. intros k. split.
    + intros Hk (pattern & sp & Hel & Hs & Hsp). by eapply Hin.
    + intros Hk. apply Hout. intros pattern sp Hel Hs Hsp. apply Hk.
      by exists pattern, sp.
  - intros Hrange. split; [|split].
    + intros pattern sp Hs. apply regex_span_range in Hs; [|done|lia].
      rewrite length_toLower in Hs. lia.
    + intros pattern start p n sp Hstart Hf Hs.
      pose proof (Hrange _ _ _ _ Hf) as Hr. rewrite length_drop, length_toLower in Hr.
      apply regex_span_range in Hs; [|done|rewrite length_toLower; lia]. lia.
    + intros Hps Hfuel.
      destruct (regex_censor_spec fuel f text Hrange Hps Hfuel) as (r & Hrun & _).
      by exists r.
Qed.

Lemma C4_regex_censor_original_text_witness :
  let f := RegexFilter.new (H:=MiniRegex.std_regex) "*" in
  length (lit "******") = length (lit "asshit")
  ∧ ∀ k, (k < length (lit "asshit") → RegexFilter.masked f (lit "asshit") k →
          lit "******" !! k = Some "*"%char)
       ∧ (¬ RegexFilter.masked f (lit "asshit") k → lit "******" !! k = lit "asshit" !! k).
Proof.
  intros f.
  apply (proj1 (proj2
    (C4_regex_censor_original_text (H:=MiniRegex.std_regex) f (lit "asshit") 6))).
  vm_compute. reflexivity.
Defined.

(* ================================================================== *)
(** * The composite forwards every word to its three filters (C7) *)
(* ================================================================== *)

Lemma regex_any_match_true `{StdRegex} lowerText patterns :
  RegexFilter.any_match lowerText patterns = true ↔
  ∃ pattern, pattern ∈ patterns ∧ is_Some (regex_search pattern lowerText).
Proof.
  induction patterns as [|p ps IH]; simpl.
  - split; [done | intros (? & Hin & _); by apply elem_of_nil in Hin].
  - destruct (regex_search p lowerText) as [m|] eqn:Hf.
    + split; [intros _ | done]. exists p. split; [by left | by rewrite Hf].
    + rewrite IH. split.
      * intros (q & Hin & Hq). exists q. split; [by right | done].
      * intros (q & [->|Hin]%elem_of_cons & Hq).
        -- rewrite Hf in Hq. by destruct Hq.
        -- by exists q.
Qed.

Lemma simple_contains_added (f : SimpleReplacementFilter.t) word text p :
  SimpleReplacementFilter.occurs_at (toLower word) (toLower text) p →
  SimpleReplacementFilter.containsProfanity
    (SimpleReplacementFilter.addProfanity f word) text = true.
Proof.
  intros Ho. apply simple_any_found_true. exists (toLower word), p.
  split; [|done]. apply elem_of_set_insert. by left.
Qed.

Lemma trie_contains_added (f : TrieFilter.t) word text p :
  word ≠ [] →
  SimpleReplacementFilter.occurs_at (toLower word) (toLower text) p →
  TrieFilter.containsProfanity (TrieFilter.addProfanity f word) text = true.
Proof.
  intros Hw [Hp Hst]. apply trie_any_start_spells.
  exists p, (length (toLower word)).
  pose proof (starts_with_length _ _ Hst) as Hlen. rewrite length_drop in Hlen.
  split; [rewrite length_toLower; destruct word; [done | simpl; lia]|].
  split; [lia|]. rewrite (starts_with_take _ _ Hst).
  simpl. apply trie_spells_addToTrie. by left.
Qed.

Lemma regex_contains_added `{StdRegex} (f : RegexFilter.t) word r text :
  compile word = Some r → is_Some (regex_search r (toLower text)) →
  RegexFilter.containsProfanity (RegexFilter.addProfanity f word) text = true.
Proof.
  intros Hc Hm. apply regex_any_match_true. exists r. split; [|done].
  unfold RegexFilter.addProfanity, RegexFilter.addPattern. rewrite Hc. simpl.
  apply elem_of_app. right. by left.
Qed.

(** C7, as stated, fails in its last clause: a word added while a strategy
    is switched off is not always matched by that strategy once it is
    switched on.  The trie filter never matches the empty word, although
    the empty word occurs in every text and the literal set reports it; the
    pattern set skips a word that is no valid pattern, such as "a(b" with
    its unmatched parenthesis, for which [std::regex] throws
    [std::regex_error]. *)
Lemma C7_counterexample_unmatched_word :
  let off := HybridFilter.configureFilters
               (HybridFilter.new (H:=MiniRegex.std_regex) "*") false false false in
  (SimpleReplacementFilter.occurs_at (toLower []) (toLower (lit "hello")) 0
   ∧ HybridFilter.containsProfanity
       (HybridFilter.configureFilters (HybridFilter.addProfanity off []) true false false)
       (lit "hello") = true
   ∧ HybridFilter.containsProfanity
       (HybridFilter.configureFilters (HybridFilter.addProfanity off []) false false true)
       (lit "hello") = false)
  ∧ (SimpleReplacementFilter.occurs_at (toLower (lit "a(b")) (toLower (lit "xa(b")) 1
     ∧ compile (lit "a(b") = None
     ∧ HybridFilter.containsProfanity
         (HybridFilter.configureFilters (HybridFilter.addProfanity off (lit "a(b"))
            true false false)
         (lit "xa(b") = true
     ∧ HybridFilter.containsProfanity
         (HybridFilter.configureFilters (HybridFilter.addProfanity off (lit "a(b"))
            false true false)
         (lit "xa(b") = false).
Proof.
  intros off. split.
  - split; [split; [simpl; lia | done]|]. split; vm_compute; reflexivity.
  - split; [split; [simpl; lia | vm_compute; reflexivity]|].
    split; [vm_compute; reflexivity|]. split; vm_compute; reflexivity.
Qed.

(** C7 (amended): whatever the three flags are, [addProfanity] and
    [loadFromFile] of the composite hand the word, or the file, to the
    literal-set, the pattern-set and the trie filter, and leave the flags as
    they are; the filters they leave behind do not depend on the flags.
    Hence a word added while a strategy is switched off takes effect when
    the strategy is switched on, as if it had been added with the strategy
    on: the literal set then detects every text in which the word occurs,
    the trie does so for a non-empty word, the pattern set when the word
    compiles to a pattern that matches the text. *)
Theorem C7_hybrid_broadcast `{StdRegex} (h : HybridFilter.t) (a b c : bool) :
  let h0 := HybridFilter.configureFilters h a b c in
  (∀ word,
     HybridFilter.simpleFilter (HybridFilter.addProfanity h0 word)
     = SimpleReplacementFilter.addProfanity (HybridFilter.simpleFilter h) word
     ∧ HybridFilter.regexFilter (HybridFilter.addProfanity h0 word)
       = RegexFilter.addProfanity (HybridFilter.regexFilter h) word
     ∧ HybridFilter.trieFilter (HybridFilter.addProfanity h0 word)
       = TrieFilter.addProfanity (HybridFilter.trieFilter h) word
     ∧ HybridFilter.addProfanity h0 word
       = HybridFilter.configureFilters (HybridFilter.addProfanity h word) a b c)
  ∧ (∀ fs filename,
     HybridFilter.simpleFilter (HybridFilter.loadFromFile fs h0 filename)
     = SimpleReplacementFilter.loadFromFile fs (HybridFilter.simpleFilter h) filename
     ∧ HybridFilter.regexFilter (HybridFilter.loadFromFile fs h0 filename)
       = RegexFilter.loadFromFile fs (HybridFilter.regexFilter h) filename
     ∧ HybridFilter.trieFilter (HybridFilter.loadFromFile fs h0 filename)
       = TrieFilter.loadFromFile fs (HybridFilter.trieFilter h) filename
     ∧ HybridFilter.loadFromFile fs h0 filename
       = HybridFilter.configureFilters (HybridFilter.loadFromFile fs h filename) a b c)
  ∧ (∀ word text p,
     SimpleReplacementFilter.occurs_at (toLower word) (toLower text) p →
     HybridFilter.containsProfanity
       (HybridFilter.configureFilters (HybridFilter.addProfanity h0 word) true false false)
       text = true)
  ∧ (∀ word r text,
     compile word = Some r → is_Some (regex_search r (toLower text)) →
     HybridFilter.containsProfanity
       (HybridFilter.configureFilters (HybridFilter.addProfanity h0 word) false true false)
       text = true)
  ∧ (∀ word text p,
     word ≠ [] →
     SimpleReplacementFilter.occurs_at (toLower word) (toLower text) p →
     HybridFilter.containsProfanity
       (HybridFilter.configureFilters (HybridFilter.addProfanity h0 word) false false true)
       text = true).
Proof.
  intros h0. split; [|split; [|split; [|split]]].
  - done.
  - done.
  - intros word text p Ho. unfold HybridFilter.containsProfanity.
    cbn [HybridFilter.configureFilters HybridFilter.useSimpleFilter
         HybridFilter.simpleFilter HybridFilter.addProfanity h0].
    by rewrite (simple_contains_added _ _ _ _ Ho).
  - intros word r text Hc Hm. unfold HybridFilter.containsProfanity.
    cbn [HybridFilter.configureFilters HybridFilter.useSimpleFilter
         HybridFilter.useRegexFilter HybridFilter.regexFilter
         HybridFilter.addProfanity h0 andb].
    by rewrite (regex_contains_added _ _ _ _ Hc Hm).
  - intros word text p Hw Ho. unfold HybridFilter.containsProfanity.
    cbn [HybridFilter.configureFilters HybridFilter.useSimpleFilter
         HybridFilter.useRegexFilter HybridFilter.useTrieFilter
         HybridFilter.trieFilter HybridFilter.addProfanity h0 andb].
    by rewrite (trie_contains_added _ _ _ _ Hw Ho).
Qed.

Lemma C7_hybrid_broadcast_witness :
  let h := HybridFilter.new (H:=MiniRegex.std_regex) "*" in
  let off := HybridFilter.configureFilters h false false false in
  let h1 := HybridFilter.addProfanity off (lit "Heck") in
  HybridFilter.containsProfanity off (lit "oh heck") = false
  ∧ HybridFilter.containsProfanity h (lit "oh heck") = false
  ∧ HybridFilter.containsProfanity
      (HybridFilter.configureFilters h1 true false false) (lit "oh heck") = true
  ∧ HybridFilter.containsProfanity
      (HybridFilter.configureFilters h1 false true false) (lit "oh heck") = true
  ∧ HybridFilter.containsProfanity
      (HybridFilter.configureFilters h1 false false true) (lit "oh heck") = true.
Proof.
  intros h off h1.
  destruct (C7_hybrid_broadcast (H:=MiniRegex.std_regex) h false false false)
    as (_ & _ & Hsimple & Hregex & Htrie).
  split; [vm_compute; reflexivity|]. split; [vm_compute; reflexivity|].
  split; [|split].
  - apply (Hsimple (lit "Heck") (lit "oh heck") 3). vm_compute. split; [lia | done].
  - eapply (Hregex (lit "Heck")); [vm_compute; reflexivity | vm_compute; eauto].
  - apply (Htrie (lit "Heck") (lit "oh heck") 3); [done|]. vm_compute. split; [lia | done].
Defined.


(* ================================================================== *)
(** * Letter case *)
(* ================================================================== *)

Lemma tolower_same_letter a b : same_letter a b → tolower a = tolower b.
Proof.
  intros [->|[[Ha Hb]|[Hb Ha]]]; [done| |]; unfold tolower; cbv zeta.
  - assert ((65 <=? nat_of_ascii a) && (nat_of_ascii a <=? 90) = true) as ->
      by (apply andb_true_iff; split; apply Nat.leb_le; lia).
    assert ((65 <=? nat_of_ascii b) && (nat_of_ascii b <=? 90) = false) as ->
      by (apply andb_false_iff; right; apply Nat.leb_gt; lia).
    by rewrite <- Hb, ascii_nat_embedding.
  - assert ((65 <=? nat_of_ascii b) && (nat_of_ascii b <=? 90) = true) as ->
      by (apply andb_true_iff; split; apply Nat.leb_le; lia).
    assert ((65 <=? nat_of_ascii a) && (nat_of_ascii a <=? 90) = false) as ->
      by (apply andb_false_iff; right; apply Nat.leb_gt; lia).
    by rewrite <- Ha, ascii_nat_embedding.
Qed.

Lemma toLower_same_letter t1 t2 : Forall2 same_letter t1 t2 → toLower t1 = toLower t2.
Proof.
  induction 1 as [|a b t1 t2 Hab _ IH]; simpl; [done|].
  by rewrite (tolower_same_letter a b Hab), IH.
Qed.

(** X1: detection ignores letter case.  Two texts that differ only in the
    case of ASCII letters (byte by byte: the same byte, or an upper-case
    letter against its lower-case letter) get the same answer from
    [containsProfanity] of each of the four filters, and the literal-set
    and the trie filter are left the same by adding either as a word. *)
Theorem X1_detection_ignores_case `{StdRegex} (t1 t2 : str) :
  Forall2 same_letter t1 t2 →
  (∀ f : SimpleReplacementFilter.t, containsProfanity f t1 = containsProfanity f t2)
  ∧ (∀ f : RegexFilter.t, containsProfanity f t1 = containsProfanity f t2)
  ∧ (∀ f : TrieFilter.t, containsProfanity f t1 = containsProfanity f t2)
  ∧ (∀ f : HybridFilter.t, containsProfanity f t1 = containsProfanity f t2)
  ∧ (∀ f : SimpleReplacementFilter.t, addProfanity f t1 = addProfanity f t2)
  ∧ (∀ f : TrieFilter.t, addProfanity f t1 = addProfanity f t2).
Proof.
  intros Heq%toLower_same_letter. repeat split; intros f; simpl.
  - unfold SimpleReplacementFilter.containsProfanity. by rewrite Heq.
  - unfold RegexFilter.containsProfanity. by rewrite Heq.
  - unfold TrieFilter.containsProfanity. by rewrite Heq.
  - unfold HybridFilter.containsProfanity, SimpleReplacementFilter.containsProfanity,
      RegexFilter.containsProfanity, TrieFilter.containsProfanity. by rewrite Heq.
  - unfold SimpleReplacementFilter.addProfanity. by rewrite Heq.
  - unfold TrieFilter.addProfanity. by rewrite Heq.
Qed.

Lemma X1_detection_ignores_case_witness :
  containsProfanity (HybridFilter.new (H:=MiniRegex.std_regex) "*") (lit "Oh FuCk!")
  = containsProfanity (HybridFilter.new (H:=MiniRegex.std_regex) "*") (lit "oh fUck!")
  ∧ addProfanity (TrieFilter.new "*") (lit "Oh FuCk!")
    = addProfanity (TrieFilter.new "*") (lit "oh fUck!").
Proof.
  destruct (X1_detection_ignores_case (H:=MiniRegex.std_regex)
              (lit "Oh FuCk!") (lit "oh fUck!"))
    as (_ & _ & _ & Hh & _ & Ht).
  - cbv [lit String.list_ascii_of_string].
    repeat (constructor;
      [first [ left; reflexivity
             | right; left; split; vm_compute; lia
             | right; right; split; vm_compute; lia ]|]).
    constructor.
  - split; [apply Hh | apply Ht].
Defined.

(* ================================================================== *)
(** * [censor] writes nothing but the mask character *)
(* ================================================================== *)

Lemma masks_only_refl c text : masks_only c text text.
Proof. split; [done | by left]. Qed.

Lemma masks_only_trans c a b d :
  masks_only c a b → masks_only c b d → masks_only c a d.
Proof.
  intros [Hl1 H1] [Hl2 H2]. split; [congruence|].
  intros k. destruct (H2 k) as [Hk|Hk]; [|by right].
  rewrite Hk. apply H1.
Qed.

Lemma masks_only_fill_guarded c pos n r : masks_only c r (fill_guarded c pos n r).
Proof.
  split; [apply length_fill_guarded|]. intros k.
  rewrite lookup_fill_guarded. case_decide; [by right | by left].
Qed.

Lemma when_done_bind (P Q : str → Prop) (o : outcome str) (k : str → outcome str) :
  when_done P o → (∀ r, P r → when_done Q (k r)) → when_done Q (o ≫= k).
Proof. destruct o as [r| |]; simpl; auto. Qed.

Lemma when_done_impl (P Q : str → Prop) (o : outcome str) :
  when_done P o → (∀ r, P r → Q r) → when_done Q o.
Proof. destruct o as [r| |]; simpl; auto. Qed.

Lemma simple_scan_word_masks_only fuel c lowerText word pos text r :
  masks_only c text r →
  when_done (masks_only c text)
    (SimpleReplacementFilter.scan_word fuel c lowerText word pos r).
Proof.
  revert pos r. induction fuel as [|fuel IH]; intros pos r Hr; simpl;
    destruct (find lowerText word pos) as [p|]; try done.
  destruct (fill c p (length word) r) as [r1| |] eqn:Hfill; simpl; try done.
  apply IH. apply fill_inv in Hfill as [-> _].
  eapply masks_only_trans; [done | apply masks_only_fill_guarded].
Qed.

Lemma simple_censor_masks_only fuel (f : SimpleReplacementFilter.t) text :
  when_done (masks_only (SimpleReplacementFilter.replacementChar f) text)
    (SimpleReplacementFilter.censor fuel f text).
Proof.
  unfold SimpleReplacementFilter.censor. generalize (toLower text) as lowerText.
  generalize (masks_only_refl (SimpleReplacementFilter.replacementChar f) text).
  generalize text at 2 4 as r.
  induction (SimpleReplacementFilter.profanityList f) as [|word words IH];
    intros r Hr lowerText; simpl; [done|].
  eapply when_done_bind; [by apply simple_scan_word_masks_only|].
  intros r1 Hr1. by apply IH.
Qed.

Lemma regex_scan_pattern_masks_only `{StdRegex} fuel c lowerText pattern start text r :
  masks_only c text r →
  when_done (masks_only c text)
    (RegexFilter.scan_pattern fuel c lowerText pattern start r).
Proof.
  revert start r. induction fuel as [|fuel IH]; intros start r Hr; simpl;
    destruct (regex_search pattern (drop start lowerText)) as [[p n]|]; try done.
  apply IH. eapply masks_only_trans; [done | apply masks_only_fill_guarded].
Qed.

Lemma regex_censor_masks_only `{StdRegex} fuel (f : RegexFilter.t) text :
  when_done (masks_only (RegexFilter.replacementChar f) text)
    (RegexFilter.censor fuel f text).
Proof.
  unfold RegexFilter.censor. generalize (toLower text) as lowerText.
  generalize (masks_only_refl (RegexFilter.replacementChar f) text).
  generalize text at 2 4 as r.
  induction (RegexFilter.profanityPatterns f) as [|pattern patterns IH];
    intros r Hr lowerText; simpl; [done|].
  eapply when_done_bind; [by apply regex_scan_pattern_masks_only|].
  intros r1 Hr1. by apply IH.
Qed.

Lemma trie_censor_loop_masks_only budget root c lowerText i text r :
  masks_only c text r →
  when_done (masks_only c text)
    (TrieFilter.censor_loop budget root c lowerText i r).
Proof.
  revert i r. induction budget as [|budget IH]; intros i r Hr; simpl;
    destruct (decide (i < length lowerText)); try done.
  destruct (TrieFilter.walk root (drop i lowerText) i i None 0) as [[wordEnd|] wordLength].
  - destruct (fill c i wordLength r) as [r1| |] eqn:Hfill; simpl; try done.
    apply IH. apply fill_inv in Hfill as [-> _].
    eapply masks_only_trans; [done | apply masks_only_fill_guarded].
  - by apply IH.
Qed.

Lemma trie_censor_masks_only (f : TrieFilter.t) text :
  when_done (masks_only (TrieFilter.replacementChar f) text) (TrieFilter.censor f text).
Proof. apply trie_censor_loop_masks_only, masks_only_refl. Qed.

(** X2: whenever [censor] returns, its result is the input text with some
    characters replaced by the mask character: every other character is
    returned as it was given, upper case included.  For the composite with
    one mask character in its three filters the same holds of the whole
    pipeline. *)
Theorem X2_censor_masks_only `{StdRegex} (fuel : nat) (text : str) :
  (∀ f : SimpleReplacementFilter.t,
     when_done (masks_only (SimpleReplacementFilter.replacementChar f) text)
       (censor fuel f text))
  ∧ (∀ f : RegexFilter.t,
     when_done (masks_only (RegexFilter.replacementChar f) text) (censor fuel f text))
  ∧ (∀ f : TrieFilter.t,
     when_done (masks_only (TrieFilter.replacementChar f) text) (censor fuel f text))
  ∧ (∀ (f : HybridFilter.t) c, hybrid_mask f c →
     when_done (masks_only c text) (censor fuel f text)).
Proof.
  split; [|split; [|split]].
  - intros f. apply simple_censor_masks_only.
  - intros f. apply regex_censor_masks_only.
  - intros f. apply trie_censor_masks_only.
  - intros f c (Hs & Hr & Ht). simpl. unfold HybridFilter.censor.
    apply (when_done_bind (masks_only c text)).
    { destruct (HybridFilter.useSimpleFilter f).
      - rewrite <- Hs. apply simple_censor_masks_only.
      - apply masks_only_refl. }
    intros r1 Hr1. apply (when_done_bind (masks_only c text)).
    { destruct (HybridFilter.useRegexFilter f); [|done].
      eapply when_done_impl; [apply regex_censor_masks_only|].
      intros r Hr'. rewrite Hr in Hr'. by eapply masks_only_trans. }
    intros r2 Hr2. apply (when_done_bind (masks_only c text)); [|done].
    destruct (HybridFilter.useTrieFilter f); [|done].
    eapply when_done_impl; [apply trie_censor_masks_only|].
    intros r Hr'. rewrite Ht in Hr'. by eapply masks_only_trans.
Qed.

Lemma X2_censor_masks_only_witness :
  when_done (masks_only "*" (lit "You BASTARD, Sir"))
    (censor 16 (HybridFilter.new (H:=MiniRegex.std_regex) "*") (lit "You BASTARD, Sir")).
Proof.
  apply (proj2 (proj2 (proj2 (X2_censor_masks_only (H:=MiniRegex.std_regex) 16
                                (lit "You BASTARD, Sir"))))).
  repeat split.
Defined.

(* ================================================================== *)
(** * What is detected is masked *)
(* ================================================================== *)

Lemma simple_any_found_find lowerText words :
  SimpleReplacementFilter.any_found lowerText words = true →
  ∃ word p, word ∈ words ∧ find lowerText word 0 = Some p.
Proof.
  induction words as [|word words IH]; simpl; [done|].
  destruct (find lowerText word 0) as [p|] eqn:Hf.
  - intros _. exists word, p. split; [by left | done].
  - intros (w & p & Hel & Hp)%IH. exists w, p. split; [by right | done].
Qed.

Lemma trie_examined_positive root lowerText budget i :
  TrieFilter.any_start root (drop i lowerText) = true →
  length lowerText - i ≤ budget →
  ∃ a l, (a, l) ∈ TrieFilter.examined budget root lowerText i ∧ 0 < l.
Proof.
  revert i. induction budget as [|budget IH]; intros i Hany Hb.
  - rewrite drop_ge in Hany by lia. done.
  - destruct (decide (i < length lowerText)) as [Hi|Hi];
      [|rewrite drop_ge in Hany by lia; done].
    simpl. rewrite decide_True by done.
    destruct (TrieFilter.walk root (drop i lowerText) i i None 0)
      as [[wordEnd|] wordLength] eqn:Hw.
    + apply trie_walk_found in Hw as (Hl & _). exists i, wordLength.
      split; [by left | lia].
    + apply trie_walk_none in Hw as (_ & Hno).
      destruct (lookup_lt_is_Some_2 lowerText i Hi) as [x Hx].
      rewrite (drop_S _ _ _ Hx) in Hany, Hno. rewrite trie_any_start_cons in Hany.
      destruct (TrieFilter.reaches_word root (x :: drop (S i) lowerText)) eqn:Hreach.
      * apply trie_reaches_word_spells in Hreach as (n & Hn & Hs).
        rewrite (Hno n Hn) in Hs. done.
      * destruct (IH (S i) Hany ltac:(lia)) as (a & l & Hel & Hl).
        exists a, l. split; [by right | done].
Qed.

(** X3: what is detected is masked.  When [containsProfanity(text)] is
    true, [censor(text)] returns a string in which at least one whole match
    is overwritten with the mask character: an occurrence of a banned word
    for the literal set (non-empty words), a span matched by a pattern for
    the pattern set (no pattern matching the empty string), a banned word
    of the trie for the trie filter. *)
Theorem X3_detected_is_masked `{StdRegex} (fuel : nat) (text : str) :
  length text ≤ fuel →
  (∀ f : SimpleReplacementFilter.t,
     Forall (λ word, word ≠ []) (SimpleReplacementFilter.profanityList f) →
     SimpleReplacementFilter.containsProfanity f text = true →
     ∃ r word p,
       SimpleReplacementFilter.censor fuel f text = Done r
       ∧ word ∈ SimpleReplacementFilter.profanityList f
       ∧ SimpleReplacementFilter.occurs_at word (toLower text) p
       ∧ ∀ k, p ≤ k < p + length word →
              r !! k = Some (SimpleReplacementFilter.replacementChar f))
  ∧ (∀ f : RegexFilter.t,
     search_in_range → Forall never_empty (RegexFilter.profanityPatterns f) →
     RegexFilter.containsProfanity f text = true →
     ∃ r pattern p n,
       RegexFilter.censor fuel f text = Done r
       ∧ pattern ∈ RegexFilter.profanityPatterns f
       ∧ regex_search pattern (toLower text) = Some (p, n) ∧ 0 < n
       ∧ ∀ k, p ≤ k < p + n → r !! k = Some (RegexFilter.replacementChar f))
  ∧ (∀ f : TrieFilter.t,
     TrieFilter.containsProfanity f text = true →
     ∃ r i l,
       TrieFilter.censor f text = Done r
       ∧ 0 < l ∧ TrieFilter.banned f (take l (drop i (toLower text)))
       ∧ ∀ k, i ≤ k < i + l → r !! k = Some (TrieFilter.replacementChar f)).
Proof.
  intros Hfuel. split; [|split].
  - intros f Hws Hc.
    destruct (simple_censor_spec fuel f text Hws Hfuel) as (r & Hrun & _ & Hmask).
    apply simple_any_found_find in Hc as (word & p & Hel & Hf).
    exists r, word, p. split; [done|]. split; [done|].
    pose proof (hit_here := SimpleReplacementFilter.hit_here _ _ _ _ Hf).
    split; [by apply simple_hit_occurs in hit_here as [_ ?]|].
    intros k Hk. apply Hmask. by exists word, p.
  - intros f Hrange Hps Hc.
    destruct (regex_censor_spec fuel f text Hrange Hps Hfuel) as (r & Hrun & _ & Hmask).
    apply regex_any_match_true in Hc as (pattern & Hel & [[p n] Hs]).
    exists r, pattern, p, n. split; [done|]. split; [done|]. split; [done|].
    assert (never_empty pattern) as Hne by (by eapply Forall_forall in Hps).
    split; [by eapply Hne|].
    intros k Hk. apply Hmask. exists pattern, (p + 0, n). split; [done|].
    split; [apply RegexFilter.span_here; by rewrite drop_0|].
    unfold in_span. simpl. lia.
  - intros f Hc.
    destruct (trie_censor_spec f text) as (r & Hrun & _ & Hmask).
    destruct (trie_examined_positive (TrieFilter.root f) (toLower text) (length text) 0)
      as (i & l & Hel & Hl).
    { by rewrite drop_0. }
    { rewrite length_toLower. lia. }
    exists r, i, l. split; [done|]. split; [done|].
    apply trie_examined_longest in Hel as Hlong. destruct Hlong as (_ & Hs & _).
    split; [by apply Hs|].
    intros k Hk. apply Hmask. exists (i, l). split; [done | done].
Qed.

Lemma X3_detected_is_masked_witness :
  ∃ r i l,
    TrieFilter.censor (TrieFilter.new "#") (lit "Oh Damn") = Done r
    ∧ 0 < l ∧ TrieFilter.banned (TrieFilter.new "#") (take l (drop i (toLower (lit "Oh Damn"))))
    ∧ ∀ k, i ≤ k < i + l → r !! k = Some "#"%char.
Proof.
  refine (proj2 (proj2 (X3_detected_is_masked (H:=MiniRegex.std_regex) 7 (lit "Oh Damn") _))
            (TrieFilter.new "#") _).
  - vm_compute. lia.
  - vm_compute. reflexivity.
Defined.

(* ================================================================== *)
(** * Adding words never hides a detection *)
(* ================================================================== *)

Lemma simple_mono_add (f : SimpleReplacementFilter.t) word text :
  SimpleReplacementFilter.containsProfanity f text = true →
  SimpleReplacementFilter.containsProfanity
    (SimpleReplacementFilter.addProfanity f word) text = true.
Proof.
  unfold SimpleReplacementFilter.containsProfanity. rewrite !simple_any_found_true.
  intros (w & p & Hel & Ho). exists w, p. split; [|done].
  apply simple_elem_addProfanity. by right.
Qed.

Lemma regex_mono_add `{StdRegex} (f : RegexFilter.t) word text :
  RegexFilter.containsProfanity f text = true →
  RegexFilter.containsProfanity (RegexFilter.addProfanity f word) text = true.
Proof.
  unfold RegexFilter.containsProfanity, RegexFilter.addProfanity, RegexFilter.addPattern.
  destruct (compile word) as [r|]; [|done]. simpl.
  rewrite !regex_any_match_true. intros (p & Hel & Hp). exists p. split; [|done].
  apply elem_of_app. by left.
Qed.

Lemma trie_mono_add (f : TrieFilter.t) word text :
  TrieFilter.containsProfanity f text = true →
  TrieFilter.containsProfanity (TrieFilter.addProfanity f word) text = true.
Proof.
  unfold TrieFilter.containsProfanity. rewrite !trie_any_start_spells.
  intros (p & n & Hn & Hp & Hs). exists p, n. split; [done|]. split; [done|].
  simpl. apply trie_spells_addToTrie. by right.
Qed.

Lemma simple_mono_load fs (f : SimpleReplacementFilter.t) filename text :
  SimpleReplacementFilter.containsProfanity f text = true →
  SimpleReplacementFilter.containsProfanity
    (SimpleReplacementFilter.loadFromFile fs f filename) text = true.
Proof.
  unfold SimpleReplacementFilter.loadFromFile.
  destruct (fs filename) as [lines|]; [|done].
  revert f. induction lines as [|line lines IH]; intros f Hc; [done|].
  unfold SimpleReplacementFilter.load_lines. cbn [foldl]. apply IH.
  destruct (empty line); [done|]. by apply simple_mono_add.
Qed.

Lemma regex_mono_load `{StdRegex} fs (f : RegexFilter.t) filename text :
  RegexFilter.containsProfanity f text = true →
  RegexFilter.containsProfanity (RegexFilter.loadFromFile fs f filename) text = true.
Proof.
  unfold RegexFilter.loadFromFile.
  destruct (fs filename) as [lines|]; [|done].
  revert f. induction lines as [|line lines IH]; intros f Hc; [done|].
  unfold RegexFilter.load_lines. cbn [foldl]. apply IH.
  destruct (empty line); [done|]. by apply regex_mono_add.
Qed.

Lemma trie_mono_load fs (f : TrieFilter.t) filename text :
  TrieFilter.containsProfanity f text = true →
  TrieFilter.containsProfanity (TrieFilter.loadFromFile fs f filename) text = true.
Proof.
  unfold TrieFilter.loadFromFile.
  destruct (fs filename) as [lines|]; [|done].
  revert f. induction lines as [|line lines IH]; intros f Hc; [done|].
  unfold TrieFilter.load_lines. cbn [foldl]. apply IH.
  destruct (empty line); [done|]. by apply trie_mono_add.
Qed.

Lemma hybrid_contains_mono (us ur ut s r t s' r' t' : bool) :
  (s = true → s' = true) → (r = true → r' = true) → (t = true → t' = true) →
  (if us && s then true else if ur && r then true else if ut && t then true else false)
    = true →
  (if us && s' then true else if ur && r' then true else if ut && t' then true else false)
    = true.
Proof.
  intros Hs Hr Ht.
  destruct us, ur, ut, s, r, t; simpl; try done;
    rewrite ?Hs, ?Hr, ?Ht by done; simpl; try done;
    destruct s', r', t'; done.
Qed.

(** X4: the word list only grows.  A text that [containsProfanity] reports
    is still reported after any [addProfanity] and any [loadFromFile], for
    each of the four filters. *)
Theorem X4_detection_monotone `{StdRegex} (fs : filesystem) (word filename text : str) :
  (∀ f : SimpleReplacementFilter.t, containsProfanity f text = true →
     containsProfanity (addProfanity f word) text = true
     ∧ containsProfanity (loadFromFile fs f filename) text = true)
  ∧ (∀ f : RegexFilter.t, containsProfanity f text = true →
     containsProfanity (addProfanity f word) text = true
     ∧ containsProfanity (loadFromFile fs f filename) text = true)
  ∧ (∀ f : TrieFilter.t, containsProfanity f text = true →
     containsProfanity (addProfanity f word) text = true
     ∧ containsProfanity (loadFromFile fs f filename) text = true)
  ∧ (∀ f : HybridFilter.t, containsProfanity f text = true →
     containsProfanity (addProfanity f word) text = true
     ∧ containsProfanity (loadFromFile fs f filename) text = true).
Proof.
  split; [|split; [|split]]; intros f Hc.
  - split; [by apply simple_mono_add | by apply simple_mono_load].
  - split; [by apply regex_mono_add | by apply regex_mono_load].
  - split; [by apply trie_mono_add | by apply trie_mono_load].
  - split.
    + revert Hc. apply hybrid_contains_mono;
        [apply simple_mono_add | apply regex_mono_add | apply trie_mono_add].
    + revert Hc. apply hybrid_contains_mono;
        [apply simple_mono_load | apply regex_mono_load | apply trie_mono_load].
Qed.

Lemma X4_detection_monotone_witness :
  let f := HybridFilter.new (H:=MiniRegex.std_regex) "*" in
  containsProfanity (addProfanity f (lit "heck")) (lit "damn it") = true.
Proof.
  intros f.
  apply (proj2 (proj2 (proj2 (X4_detection_monotone (H:=MiniRegex.std_regex)
           (λ _, None) (lit "heck") [] (lit "damn it"))))).
  vm_compute. reflexivity.
Defined.

(* ================================================================== *)
(** * The literal set is an ordered set *)
(* ================================================================== *)

Lemma str_compare_refl a : str_compare a a = Eq.
Proof.
  induction a as [|x a IH]; simpl; [done|]. by rewrite Nat.compare_refl.
Qed.

Lemma str_compare_antisym a b : str_compare b a = CompOpp (str_compare a b).
Proof.
  revert b. induction a as [|x a IH]; intros [|y b]; simpl; try done.
  rewrite (Nat.compare_antisym (nat_of_ascii x) (nat_of_ascii y)).
  destruct (nat_of_ascii x ?= nat_of_ascii y); simpl; [apply IH | done | done].
Qed.

Lemma str_lt_irrefl a : ¬ str_lt a a.
Proof. unfold str_lt. by rewrite str_compare_refl. Qed.

Lemma str_lt_asym a b : str_lt a b → str_lt b a → False.
Proof. unfold str_lt. rewrite (str_compare_antisym a b). by intros ->. Qed.

Lemma str_lt_trans a b d : str_lt a b → str_lt b d → str_lt a d.
Proof.
  unfold str_lt. revert b d.
  induction a as [|x a IH]; intros [|y b] [|z d]; simpl; try done.
  destruct (Nat.compare_spec (nat_of_ascii x) (nat_of_ascii y)) as [Hxy|Hxy|Hxy];
    destruct (Nat.compare_spec (nat_of_ascii y) (nat_of_ascii z)) as [Hyz|Hyz|Hyz];
    destruct (Nat.compare_spec (nat_of_ascii x) (nat_of_ascii z)) as [Hxz|Hxz|Hxz];
    try done; try lia.
  apply IH.
Qed.

Lemma set_insert_sorted w s :
  StronglySorted str_lt s → StronglySorted str_lt (set_insert w s).
Proof.
  induction 1 as [|x s Hs IH Hx]; simpl.
  - repeat constructor.
  - destruct (str_compare w x) eqn:Hc.
    + by constructor.
    + constructor; [by constructor|]. constructor; [done|].
      eapply Forall_impl; [exact Hx|]. intros y Hy. by eapply str_lt_trans.
    + constructor; [done|]. apply Forall_forall.
      intros y [->|Hy]%elem_of_set_insert.
      * unfold str_lt. by rewrite (str_compare_antisym w x), Hc.
      * by eapply Forall_forall in Hx.
Qed.

Lemma sorted_NoDup s : StronglySorted str_lt s → NoDup s.
Proof.
  induction 1 as [|x s Hs IH Hx]; constructor; [|done].
  intros Hel. eapply Forall_forall in Hx; [|done]. by apply str_lt_irrefl in Hx.
Qed.

(** A sorted list is determined by its elements. *)
Lemma sorted_ext s1 s2 :
  StronglySorted str_lt s1 → StronglySorted str_lt s2 →
  (∀ w, w ∈ s1 ↔ w ∈ s2) → s1 = s2.
Proof.
  intros H1 H2 Hel. apply (StronglySorted_unique_strong str_lt); [|done|done|].
  - intros x1 x2 _ _ H12 H21. destruct (str_lt_asym _ _ H12 H21).
  - apply NoDup_Permutation; [by apply sorted_NoDup..|done].
Qed.

Lemma simple_addProfanity_sorted (f : SimpleReplacementFilter.t) word :
  StronglySorted str_lt (SimpleReplacementFilter.profanityList f) →
  StronglySorted str_lt
    (SimpleReplacementFilter.profanityList (SimpleReplacementFilter.addProfanity f word)).
Proof. apply set_insert_sorted. Qed.

Lemma simple_load_lines_sorted lines (f : SimpleReplacementFilter.t) :
  StronglySorted str_lt (SimpleReplacementFilter.profanityList f) →
  StronglySorted str_lt
    (SimpleReplacementFilter.profanityList (SimpleReplacementFilter.load_lines f lines)).
Proof.
  revert f. induction lines as [|line lines IH]; intros f Hf; [done|].
  unfold SimpleReplacementFilter.load_lines. cbn [foldl]. apply IH.
  destruct (empty line); [done|]. by apply simple_addProfanity_sorted.
Qed.

Lemma simple_new_sorted c :
  StronglySorted str_lt
    (SimpleReplacementFilter.profanityList (SimpleReplacementFilter.new c)).
Proof.
  unfold SimpleReplacementFilter.new. cbn [SimpleReplacementFilter.profanityList].
  generalize defaultWords as ws.
  assert (StronglySorted str_lt []) as Hnil by constructor.
  revert Hnil. generalize (@nil str) as s.
  intros s Hs ws. revert s Hs. induction ws as [|w ws IH]; intros s Hs; [done|].
  cbn [foldl]. apply IH. by apply set_insert_sorted.
Qed.

Lemma simple_run_ops_sorted fs ops (f : SimpleReplacementFilter.t) :
  StronglySorted str_lt (SimpleReplacementFilter.profanityList f) →
  StronglySorted str_lt (SimpleReplacementFilter.profanityList (run_ops fs ops f)).
Proof.
  revert f. induction ops as [|op ops IH]; intros f Hf; [done|].
  unfold run_ops. cbn [foldl]. apply IH. destruct op as [word|filename].
  - by apply simple_addProfanity_sorted.
  - unfold run_op, loadFromFile. cbn. unfold SimpleReplacementFilter.loadFromFile.
    destruct (fs filename) as [lines|]; [|done]. by apply simple_load_lines_sorted.
Qed.

(** X5: the word list of the literal-set filter is a set in the order of
    [std::set<std::string>].  After the constructor and any sequence of
    [addProfanity] and [loadFromFile] it is strictly increasing in the
    byte-wise lexicographic order and holds no word twice. *)
Theorem X5_literal_set_sorted (fs : filesystem) (ops : list load_op) (c : ascii) :
  let f := run_ops fs ops (SimpleReplacementFilter.new c) in
  StronglySorted str_lt (SimpleReplacementFilter.profanityList f)
  ∧ NoDup (SimpleReplacementFilter.profanityList f).
Proof.
  intros f.
  assert (StronglySorted str_lt (SimpleReplacementFilter.profanityList f)) as Hs
    by apply simple_run_ops_sorted, simple_new_sorted.
  split; [done | by apply sorted_NoDup].
Qed.

Lemma simple_filter_ext (f g : SimpleReplacementFilter.t) :
  StronglySorted str_lt (SimpleReplacementFilter.profanityList f) →
  StronglySorted str_lt (SimpleReplacementFilter.profanityList g) →
  (∀ w, w ∈ SimpleReplacementFilter.profanityList f ↔
        w ∈ SimpleReplacementFilter.profanityList g) →
  SimpleReplacementFilter.replacementChar f = SimpleReplacementFilter.replacementChar g →
  f = g.
Proof.
  destruct f as [lf cf], g as [lg cg]. simpl. intros Hf Hg Hel ->.
  f_equal. by apply sorted_ext.
Qed.

(** X6: the literal-set filter does not depend on the order in which words
    were added, nor on how often.  Adding two words in either order leaves
    the same filter; adding a word whose case folding is in the list
    already, in any letter case, changes nothing. *)
Theorem X6_literal_set_canonical
    (fs : filesystem) (ops : list load_op) (c : ascii) (a b : str) :
  let f := run_ops fs ops (SimpleReplacementFilter.new c) in
  SimpleReplacementFilter.addProfanity (SimpleReplacementFilter.addProfanity f a) b
  = SimpleReplacementFilter.addProfanity (SimpleReplacementFilter.addProfanity f b) a
  ∧ (toLower a ∈ SimpleReplacementFilter.profanityList f →
     SimpleReplacementFilter.addProfanity f a = f).
Proof.
  intros f.
  assert (StronglySorted str_lt (SimpleReplacementFilter.profanityList f)) as Hs
    by apply simple_run_ops_sorted, simple_new_sorted.
  split.
  - apply simple_filter_ext; [by do 2 apply simple_addProfanity_sorted..| |done].
    intros w. rewrite !simple_elem_addProfanity. tauto.
  - intros Hel. apply simple_filter_ext; [by apply simple_addProfanity_sorted|done| |done].
    intros w. rewrite simple_elem_addProfanity. split; [intros [->|]; done | by right].
Qed.

Lemma X6_literal_set_canonical_witness :
  SimpleReplacementFilter.addProfanity (SimpleReplacementFilter.new "*") (lit "SHIT")
  = SimpleReplacementFilter.new "*".
Proof.
  refine (proj2 (X6_literal_set_canonical (λ _, None) [] "*" (lit "SHIT") []) _).
  vm_compute. do 5 right. left.
Defined.

(* ================================================================== *)
(** * The trie does not depend on the order of insertion *)
(* ================================================================== *)

Lemma trie_addToTrie_idemp word node :
  TrieFilter.addToTrie word (TrieFilter.addToTrie word node)
  = TrieFilter.addToTrie word node.
Proof.
  revert node. induction word as [|x word IH]; intros node; simpl; [done|].
  rewrite lookup_insert_eq. simpl. by rewrite IH, insert_insert_eq.
Qed.

Lemma trie_addToTrie_comm w1 w2 node :
  TrieFilter.addToTrie w1 (TrieFilter.addToTrie w2 node)
  = TrieFilter.addToTrie w2 (TrieFilter.addToTrie w1 node).
Proof.
  revert w2 node. induction w1 as [|x w1 IH]; intros [|y w2] node; simpl; try done.
  destruct (decide (x = y)) as [->|Hxy].
  - rewrite !lookup_insert_eq. simpl. rewrite !insert_insert_eq. by rewrite IH.
  - rewrite !lookup_insert_ne by done. f_equal. by apply insert_insert_ne.
Qed.

(** X7: the trie does not depend on the order in which words were added,
    nor on how often: [addProfanity] of the trie filter commutes with itself
    and is idempotent, as an equation between tries. *)
Theorem X7_trie_canonical (f : TrieFilter.t) (a b : str) :
  TrieFilter.addProfanity (TrieFilter.addProfanity f a) b
  = TrieFilter.addProfanity (TrieFilter.addProfanity f b) a
  ∧ TrieFilter.addProfanity (TrieFilter.addProfanity f a) a
    = TrieFilter.addProfanity f a.
Proof.
  unfold TrieFilter.addProfanity. simpl. split; f_equal.
  - apply trie_addToTrie_comm.
  - apply trie_addToTrie_idemp.
Qed.

(* ================================================================== *)
(** * The empty word *)
(* ================================================================== *)

(** The loops over the trie read the children of the root, never its
    end-of-word mark. *)
Lemma trie_reaches_word_root b1 b2 ch rest :
  TrieFilter.reaches_word (mkTrieNode b1 ch) rest
  = TrieFilter.reaches_word (mkTrieNode b2 ch) rest.
Proof. by destruct rest. Qed.

Lemma trie_walk_root b1 b2 ch rest i j wordEnd wordLength :
  TrieFilter.walk (mkTrieNode b1 ch) rest i j wordEnd wordLength
  = TrieFilter.walk (mkTrieNode b2 ch) rest i j wordEnd wordLength.
Proof. by destruct rest. Qed.

Lemma trie_any_start_root b1 b2 ch rest :
  TrieFilter.any_start (mkTrieNode b1 ch) rest
  = TrieFilter.any_start (mkTrieNode b2 ch) rest.
Proof.
  induction rest as [|x rest IH]; [done|].
  rewrite !trie_any_start_cons, IH.
  by rewrite (trie_reaches_word_root b1 b2).
Qed.

Lemma trie_censor_loop_root budget b1 b2 ch c lowerText i r :
  TrieFilter.censor_loop budget (mkTrieNode b1 ch) c lowerText i r
  = TrieFilter.censor_loop budget (mkTrieNode b2 ch) c lowerText i r.
Proof.
  revert i r. induction budget as [|budget IH]; intros i r; simpl; [done|].
  destruct (decide (i < length lowerText)); [|done].
  rewrite (trie_walk_root b1 b2).
  destruct (TrieFilter.walk (mkTrieNode b2 ch) (drop i lowerText) i i None 0)
    as [[wordEnd|] wordLength]; [|apply IH].
  destruct (fill c i wordLength r); simpl; [apply IH | done | done].
Qed.

(** X8: the trie filter never matches the empty word.  Adding the empty
    word changes neither [containsProfanity] nor [censor], on any text. *)
Theorem X8_trie_ignores_empty_word (f : TrieFilter.t) (text : str) :
  TrieFilter.containsProfanity (TrieFilter.addProfanity f []) text
  = TrieFilter.containsProfanity f text
  ∧ TrieFilter.censor (TrieFilter.addProfanity f []) text = TrieFilter.censor f text.
Proof.
  destruct f as [[b ch] c].
  unfold TrieFilter.containsProfanity, TrieFilter.censor, TrieFilter.addProfanity.
  simpl. split.
  - apply trie_any_start_root.
  - apply trie_censor_loop_root.
Qed.

Lemma simple_scan_words_empty_word fuel c lowerText words r :
  [] ∈ words → length r = length lowerText →
  SimpleReplacementFilter.scan_words fuel c lowerText words r = OutOfFuel.
Proof.
  intros Hel. revert r. induction words as [|word words IH]; intros r Hlen.
  - by apply elem_of_nil in Hel.
  - cbn [SimpleReplacementFilter.scan_words].
    apply elem_of_cons in Hel as [<-|Hel].
    + rewrite simple_scan_empty_word by lia. done.
    + pose proof (simple_scan_word_safe fuel c lowerText word 0 r Hlen) as Hsafe.
      destruct (SimpleReplacementFilter.scan_word fuel c lowerText word 0 r)
        as [r1| |]; simpl in *; [|done|done].
      apply IH; [done | congruence].
Qed.

(** X9: the literal-set filter with the empty word in its list reports
    every text, the empty one included, and its [censor] returns on none:
    the iteration budget runs out, however large it is. *)
Theorem X9_literal_set_empty_word (f : SimpleReplacementFilter.t) (text : str) :
  [] ∈ SimpleReplacementFilter.profanityList f →
  SimpleReplacementFilter.containsProfanity f text = true
  ∧ ∀ fuel, SimpleReplacementFilter.censor fuel f text = OutOfFuel.
Proof.
  intros Hel. split.
  - apply simple_any_found_true. exists [], 0. split; [done|].
    split; [lia | done].
  - intros fuel. apply simple_scan_words_empty_word; [done|].
    by rewrite length_toLower.
Qed.

Lemma X9_literal_set_empty_word_witness :
  let f := SimpleReplacementFilter.addProfanity (SimpleReplacementFilter.new "*") [] in
  SimpleReplacementFilter.containsProfanity f (lit "Hello") = true
  ∧ ∀ fuel, SimpleReplacementFilter.censor fuel f (lit "Hello") = OutOfFuel.
Proof.
  intros f. apply X9_literal_set_empty_word. vm_compute. left.
Defined.

(* ================================================================== *)
(** * [loadFromFile] adds the non-empty lines *)
(* ================================================================== *)

Lemma load_lines_filter {F} (add : F → str → F) lines (f : F) :
  foldl (λ f word, if empty word then f else add f word) f lines
  = foldl add f (filter (λ line, line ≠ []) lines).
Proof.
  revert f. induction lines as [|line lines IH]; intros f; [done|].
  cbn [foldl]. destruct line as [|x line].
  - rewrite filter_cons_False by (intros Hne; by apply Hne). apply IH.
  - rewrite filter_cons_True by done. cbn [foldl empty]. apply IH.
Qed.

Lemma hybrid_foldl_addProfanity `{StdRegex} words (h : HybridFilter.t) :
  foldl HybridFilter.addProfanity h words
  = HybridFilter.mk
      (foldl SimpleReplacementFilter.addProfanity (HybridFilter.simpleFilter h) words)
      (foldl RegexFilter.addProfanity (HybridFilter.regexFilter h) words)
      (foldl TrieFilter.addProfanity (HybridFilter.trieFilter h) words)
      (HybridFilter.useSimpleFilter h) (HybridFilter.useRegexFilter h)
      (HybridFilter.useTrieFilter h).
Proof.
  revert h. induction words as [|word words IH]; intros h; [by destruct h|].
  cbn [foldl]. by rewrite IH.
Qed.

(** X10: [loadFromFile] has the effect of [addProfanity] on every non-empty
    line of the file, in the order of the file, for each of the four
    filters; blank lines are skipped, and a file that cannot be opened
    leaves the filter as it is. *)
Theorem X10_load_is_add `{StdRegex} (fs : filesystem) (filename : str) :
  (∀ f : SimpleReplacementFilter.t,
     loadFromFile fs f filename = foldl addProfanity f (loaded_lines fs filename))
  ∧ (∀ f : RegexFilter.t,
     loadFromFile fs f filename = foldl addProfanity f (loaded_lines fs filename))
  ∧ (∀ f : TrieFilter.t,
     loadFromFile fs f filename = foldl addProfanity f (loaded_lines fs filename))
  ∧ (∀ f : HybridFilter.t,
     loadFromFile fs f filename = foldl addProfanity f (loaded_lines fs filename))
  ∧ (fs filename = None → loaded_lines fs filename = [])
  ∧ [] ∉ loaded_lines fs filename.
Proof.
  assert (∀ f : SimpleReplacementFilter.t,
    SimpleReplacementFilter.loadFromFile fs f filename
    = foldl SimpleReplacementFilter.addProfanity f (loaded_lines fs filename)) as Hs.
  { intros f. unfold SimpleReplacementFilter.loadFromFile, loaded_lines.
    destruct (fs filename); [|done]. apply load_lines_filter. }
  assert (∀ f : RegexFilter.t,
    RegexFilter.loadFromFile fs f filename
    = foldl RegexFilter.addProfanity f (loaded_lines fs filename)) as Hr.
  { intros f. unfold RegexFilter.loadFromFile, loaded_lines.
    destruct (fs filename); [|done].
    apply (load_lines_filter RegexFilter.addPattern). }
  assert (∀ f : TrieFilter.t,
    TrieFilter.loadFromFile fs f filename
    = foldl TrieFilter.addProfanity f (loaded_lines fs filename)) as Ht.
  { intros f. unfold TrieFilter.loadFromFile, loaded_lines.
    destruct (fs filename); [|done]. apply load_lines_filter. }
  split; [exact Hs|]. split; [exact Hr|]. split; [exact Ht|]. split; [|split].
  - intros h. simpl. rewrite hybrid_foldl_addProfanity.
    unfold HybridFilter.loadFromFile. by rewrite Hs, Hr, Ht.
  - unfold loaded_lines. by intros ->.
  - unfold loaded_lines. destruct (fs filename) as [lines|]; [|by apply not_elem_of_nil].
    intros Hel%list_elem_of_filter. by destruct Hel as [Hne _].
Qed.

Lemma X10_load_is_add_witness :
  let fs : filesystem := λ filename,
    if decide (filename = lit "words.txt") then Some [lit "Heck"; []; lit "darn"]
    else None in
  loadFromFile fs (TrieFilter.new "*") (lit "words.txt")
  = addProfanity (addProfanity (TrieFilter.new "*") (lit "Heck")) (lit "darn")
  ∧ loaded_lines fs (lit "missing.txt") = [].
Proof.
  intros fs.
  destruct (X10_load_is_add (H:=MiniRegex.std_regex) fs (lit "words.txt"))
    as (_ & _ & Ht & _).
  destruct (X10_load_is_add (H:=MiniRegex.std_regex) fs (lit "missing.txt"))
    as (_ & _ & _ & _ & Hmissing & _).
  split; [apply Ht | apply Hmissing; reflexivity].
Defined.

(* ================================================================== *)
(** * The composite keeps what its first filter masks *)
(* ================================================================== *)

(** X11: in the composite with one mask character, a character the
    literal-set filter masks stays masked through the pattern-set and the
    trie stage: the result of the pipeline masks every position the
    literal-set filter alone masks. *)
Theorem X11_hybrid_keeps_masks `{StdRegex}
    (fuel : nat) (h : HybridFilter.t) (c : ascii) (text r1 r : str) :
  hybrid_mask h c → HybridFilter.useSimpleFilter h = true →
  SimpleReplacementFilter.censor fuel (HybridFilter.simpleFilter h) text = Done r1 →
  HybridFilter.censor fuel h text = Done r →
  ∀ k, r1 !! k = Some c → r !! k = Some c.
Proof.
  intros (_ & Hcr & Hct) Huse Hr1 Hr. unfold HybridFilter.censor in Hr.
  rewrite Huse, Hr1 in Hr. simpl in Hr.
  assert (when_done (masks_only c r1)
            (if HybridFilter.useRegexFilter h
             then RegexFilter.censor fuel (HybridFilter.regexFilter h) r1
             else Done r1)) as H2.
  { destruct (HybridFilter.useRegexFilter h); [|apply masks_only_refl].
    rewrite <- Hcr. apply regex_censor_masks_only. }
  destruct (if HybridFilter.useRegexFilter h
            then RegexFilter.censor fuel (HybridFilter.regexFilter h) r1
            else Done r1) as [r2| |]; simpl in *; [|done|done].
  assert (when_done (masks_only c r2)
            (if HybridFilter.useTrieFilter h
             then TrieFilter.censor (HybridFilter.trieFilter h) r2
             else Done r2)) as H3.
  { destruct (HybridFilter.useTrieFilter h); [|apply masks_only_refl].
    rewrite <- Hct. apply trie_censor_masks_only. }
  destruct (if HybridFilter.useTrieFilter h
            then TrieFilter.censor (HybridFilter.trieFilter h) r2
            else Done r2) as [r3| |]; simpl in *; [|done|done].
  injection Hr as <-.
  destruct (masks_only_trans _ _ _ _ H2 H3) as [_ Hk].
  intros k Hk1. destruct (Hk k) as [Heq|Heq]; [by rewrite Heq | done].
Qed.

Lemma X11_hybrid_keeps_masks_witness :
  SimpleReplacementFilter.censor 10
    (HybridFilter.simpleFilter (HybridFilter.new (H:=MiniRegex.std_regex) "*"))
    (lit "Class f*ck") = Done (lit "Cl*** f*ck")
  ∧ HybridFilter.censor 10 (HybridFilter.new (H:=MiniRegex.std_regex) "*")
      (lit "Class f*ck") = Done (lit "Cl*** ****")
  ∧ lit "Cl*** ****" !! 2 = Some "*"%char.
Proof.
  split; [vm_compute; reflexivity|]. split; [vm_compute; reflexivity|].
  apply (X11_hybrid_keeps_masks (H:=MiniRegex.std_regex) 10
           (HybridFilter.new "*") "*" (lit "Class f*ck") (lit "Cl*** f*ck")).
  - repeat split.
  - reflexivity.
  - vm_compute. reflexivity.
  - vm_compute. reflexivity.
  - reflexivity.
Defined.

(* ================================================================== *)
(** * After [censor] nothing is left to detect *)
(* ================================================================== *)

Lemma lookup_toLower s k : toLower s !! k = tolower <$> s !! k.
Proof.
  unfold toLower. revert k. induction s as [|x s IH]; intros [|k]; simpl; done.
Qed.

Lemma find_in_first w rest at_ p n :
  find_in w rest at_ = Some p → n < p - at_ → starts_with w (drop n rest) = false.
Proof.
  revert at_ n. induction rest as [|x rest IH]; intros at_ n; simpl.
  - destruct (starts_with w []); [|done]. intros [= <-]. lia.
  - destruct (starts_with w (x :: rest)) eqn:Hs.
    + intros [= <-]. lia.
    + intros Hf Hn. destruct n as [|n]; [done|].
      simpl. eapply IH; [done | lia].
Qed.

(** [find] returns the first occurrence from [pos] on. *)
Lemma find_first s w pos p q :
  find s w pos = Some p → pos ≤ q < p → starts_with w (drop q s) = false.
Proof.
  unfold find. case_decide as Hpos; [|done]. intros Hf Hq.
  pose proof (find_in_first w (drop pos s) pos p (q - pos) Hf ltac:(lia)) as Hn.
  rewrite drop_drop in Hn. by replace (pos + (q - pos)) with q in Hn by lia.
Qed.

(** Every occurrence of a word begins inside a span the loop of [censor]
    finds for that word. *)
Lemma simple_hit_covers lowerText word q pos :
  word ≠ [] → SimpleReplacementFilter.occurs_at word lowerText q → pos ≤ q →
  ∃ p, SimpleReplacementFilter.hit lowerText word pos p ∧ p ≤ q < p + length word.
Proof.
  intros Hw [Hq Hst] Hpos.
  assert (0 < length word) as Hwl by (destruct word; [done | simpl; lia]).
  assert (∃ n, q - pos < n) as [n Hn] by (exists (S (q - pos)); lia).
  revert pos Hpos Hn. induction n as [|n IH]; intros pos Hpos Hn; [lia|].
  destruct (find lowerText word pos) as [p|] eqn:Hf.
  - assert (p ≤ q) as Hpq.
    { destruct (decide (p ≤ q)) as [|Hlt]; [done|].
      rewrite (find_first _ _ _ _ q Hf) in Hst; [done | lia]. }
    pose proof (find_Some _ _ _ _ Hf) as (Hle & _).
    destruct (decide (q < p + length word)) as [Hin|Hout].
    + exists p. split; [by apply SimpleReplacementFilter.hit_here | lia].
    + destruct (IH (p + length word) ltac:(lia) ltac:(lia)) as (p' & Hh & Hr).
      exists p'. split; [by eapply SimpleReplacementFilter.hit_later | done].
  - rewrite (find_None _ _ _ q Hf) in Hst; [done | lia].
Qed.

(** A window of the case-folded result without the mask character is an
    unmasked window of the case-folded text. *)
Lemma window_unmasked (M : nat → Prop) c text r p n :
  (∀ k, M k → r !! k = Some c) → (∀ k, ¬ M k → r !! k = text !! k) →
  p + n ≤ length r → tolower c ∉ take n (drop p (toLower r)) →
  (∀ k, p ≤ k < p + n → ¬ M k)
  ∧ take n (drop p (toLower text)) = take n (drop p (toLower r)).
Proof.
  intros Hin Hout Hlen Hfree.
  assert (∀ k, p ≤ k < p + n → ¬ M k) as Hno.
  { intros k Hk HM. apply Hfree. apply list_elem_of_lookup. exists (k - p).
    rewrite lookup_take_lt by lia. rewrite lookup_drop.
    replace (p + (k - p)) with k by lia.
    by rewrite lookup_toLower, (Hin k HM). }
  split; [done|]. apply list_eq. intros j.
  destruct (decide (j < n)) as [Hj|Hj].
  - rewrite !lookup_take_lt by done. rewrite !lookup_drop, !lookup_toLower.
    by rewrite (Hout (p + j)) by (apply Hno; lia).
  - by rewrite !lookup_take_ge by lia.
Qed.

(** X12: [censor] leaves nothing to detect.  When the mask character,
    case-folded, occurs in no banned word, the result of the literal-set
    [censor] (non-empty words) and of the trie [censor] contains no banned
    word: [containsProfanity] is false on it, and censoring it again
    returns it unchanged. *)
Theorem X12_censor_effective (fuel : nat) (text : str) :
  length text ≤ fuel →
  (∀ f : SimpleReplacementFilter.t,
     Forall (λ word, word ≠ []) (SimpleReplacementFilter.profanityList f) →
     mask_free (SimpleReplacementFilter.replacementChar f)
       (λ word, word ∈ SimpleReplacementFilter.profanityList f) →
     ∃ r, SimpleReplacementFilter.censor fuel f text = Done r
        ∧ SimpleReplacementFilter.containsProfanity f r = false
        ∧ SimpleReplacementFilter.censor fuel f r = Done r)
  ∧ (∀ f : TrieFilter.t,
     mask_free (TrieFilter.replacementChar f) (TrieFilter.banned f) →
     ∃ r, TrieFilter.censor f text = Done r
        ∧ TrieFilter.containsProfanity f r = false
        ∧ TrieFilter.censor f r = Done r).
Proof.
  intros Hfuel. split.
  - intros f Hws Hfree.
    destruct (simple_censor_spec fuel f text Hws Hfuel) as (r & Hrun & Hlen & Hmask).
    assert (SimpleReplacementFilter.containsProfanity f r = false) as Hclean.
    { destruct (SimpleReplacementFilter.containsProfanity f r) eqn:Hc; [|done].
      exfalso. apply simple_any_found_true in Hc as (word & p & Hel & Hp & Hst).
      assert (word ≠ []) as Hw by (by eapply Forall_forall in Hws).
      pose proof (starts_with_length _ _ Hst) as Hwl.
      rewrite length_drop, length_toLower in Hwl. rewrite length_toLower in Hp.
      pose proof (starts_with_take _ _ Hst) as Htake.
      destruct (window_unmasked (SimpleReplacementFilter.masked f text)
                  (SimpleReplacementFilter.replacementChar f) text r p (length word))
        as [Hno Heq].
      { intros k. apply Hmask. }
      { intros k. apply Hmask. }
      { lia. }
      { rewrite Htake. by apply Hfree. }
      rewrite Htake in Heq.
      assert (SimpleReplacementFilter.occurs_at word (toLower text) p) as Ho.
      { split; [rewrite length_toLower; lia|].
        apply starts_with_prefix. rewrite <- Heq. apply prefix_take. }
      destruct (simple_hit_covers _ _ _ 0 Hw Ho ltac:(lia)) as (p0 & Hh & Hr).
      apply (Hno p); [destruct word; [done | simpl; lia]|].
      by exists word, p0. }
    exists r. split; [done|]. split; [done|]. by apply simple_censor_clean.
  - intros f Hfree.
    destruct (trie_censor_spec f text) as (r & Hrun & Hlen & Hmask).
    assert (TrieFilter.containsProfanity f r = false) as Hclean.
    { destruct (TrieFilter.containsProfanity f r) eqn:Hc; [|done].
      exfalso. apply trie_any_start_spells in Hc as (p & n & Hn & Hp & Hs).
      rewrite length_toLower in Hp.
      destruct (window_unmasked
                  (covered (TrieFilter.examined (length text) (TrieFilter.root f)
                              (toLower text) 0))
                  (TrieFilter.replacementChar f) text r p n)
        as [Hno Heq].
      { intros k. apply Hmask. }
      { intros k. apply Hmask. }
      { done. }
      { by apply Hfree. }
      rewrite <- Heq in Hs.
      destruct (trie_examined_complete (TrieFilter.root f) (toLower text)
                  (length text) 0 p) as (i & l & Hel & Hr).
      { rewrite length_toLower. lia. }
      { rewrite length_toLower. lia. }
      destruct l as [|l].
      + assert (i = p) as -> by (simpl in Hr; lia).
        apply trie_examined_longest in Hel as (_ & _ & Hmax).
        rewrite (Hmax n) in Hs; [done|]. rewrite length_toLower. lia.
      + apply (Hno p); [lia|]. exists (i, S l). split; [done|].
        unfold in_span. simpl in *. lia. }
    exists r. split; [done|]. split; [done|]. by apply trie_censor_clean.
Qed.

Lemma default_words_mask_free :
  mask_free "*" (TrieFilter.banned (TrieFilter.new "*")).
Proof.
  intros word Hb. apply (new_same_words "*" "*") in Hb.
  assert (Forall (λ w : str, tolower "*" ∉ w)
            (SimpleReplacementFilter.profanityList (SimpleReplacementFilter.new "*")))
    as Hall by (apply (bool_decide_unpack _); vm_compute; reflexivity).
  by eapply Forall_forall in Hall.
Qed.

Lemma X12_censor_effective_witness :
  ∃ r, TrieFilter.censor (TrieFilter.new "*") (lit "Damn asses") = Done r
     ∧ TrieFilter.containsProfanity (TrieFilter.new "*") r = false
     ∧ TrieFilter.censor (TrieFilter.new "*") r = Done r.
Proof.
  refine (proj2 (X12_censor_effective 10 (lit "Damn asses") _) (TrieFilter.new "*") _).
  - vm_compute. lia.
  - apply default_words_mask_free.
Defined.
